(** * Cubehelix colour map: a shallow embedding of [cubehelix.cmap]

    The Python function [cmap] builds, with numpy array arithmetic, the
    three segment tables of Dave Green's cubehelix colour scheme and hands
    them to matplotlib's [LinearSegmentedColormap].

    Numbers.  Python floats are IEEE doubles.  They are modelled as real
    numbers extended with the three special values (+inf, -inf, nan).
    Overflow is modelled: the result of an operation on finite operands
    becomes an infinity when its magnitude reaches the overflow threshold
    of the double format ([Float.fit]).  Rounding of a result that is in
    range is not modelled: such a result is the exact real number, so
    underflow and last-digit effects are outside the model.  Comparisons
    with nan are false, which is what decides how the clipping step
    behaves.  Signed zeros are not distinguished. *)

From Stdlib Require Import Reals Lra Lia List ZArith String Bool Permutation.
Import ListNotations.

Open Scope R_scope.

(** ** Floating point values *)

Inductive num : Type :=
| Fin (r : R)
| PInf
| NInf
| NaN.

(** The largest finite double, [2^1024 - 2^971], and the magnitude from
    which a real result rounds to an infinity, [2^1024 - 2^970]. *)
Definition max_float_Z : Z := Eval vm_compute in (2 ^ 1024 - 2 ^ 971)%Z.
Definition max_float : R := IZR max_float_Z.
Definition overflow_threshold_Z : Z :=
  Eval vm_compute in (2 ^ 1024 - 2 ^ 970)%Z.
Definition overflow_threshold : R := IZR overflow_threshold_Z.

Module Float.

(** The double that a real result becomes: an infinity when it
    overflows, the result itself otherwise. *)
Definition fit (x : R) : num :=
  if Rle_dec overflow_threshold x then PInf
  else if Rle_dec x (- overflow_threshold) then NInf
  else Fin x.

(** Sign of a nonzero infinity-times-finite product. *)
Definition inf_signed (positive : bool) : num :=
  if positive then PInf else NInf.

Definition opp (x : num) : num :=
  match x with
  | Fin a => Fin (- a)
  | PInf => NInf
  | NInf => PInf
  | NaN => NaN
  end.

Definition add (x y : num) : num :=
  match x, y with
  | NaN, _ | _, NaN => NaN
  | Fin a, Fin b => fit (a + b)
  | PInf, NInf | NInf, PInf => NaN
  | PInf, _ | _, PInf => PInf
  | NInf, _ | _, NInf => NInf
  end.

Definition sub (x y : num) : num := add x (opp y).

(** [inf * 0] is nan; otherwise the sign of the product. *)
Definition scale_inf (positive : bool) (b : R) : num :=
  if Req_dec_T b 0 then NaN
  else if Rlt_dec 0 b then inf_signed positive
  else inf_signed (negb positive).

Definition mul (x y : num) : num :=
  match x, y with
  | NaN, _ | _, NaN => NaN
  | Fin a, Fin b => fit (a * b)
  | PInf, Fin b | Fin b, PInf => scale_inf true b
  | NInf, Fin b | Fin b, NInf => scale_inf false b
  | PInf, PInf | NInf, NInf => PInf
  | PInf, NInf | NInf, PInf => NInf
  end.

(** numpy's array division: a zero divisor gives an infinity or nan.
    [cmap] only ever divides by the literals [255.], [3.0] and [2.]. *)
Definition div (x y : num) : num :=
  match x, y with
  | NaN, _ | _, NaN => NaN
  | Fin a, Fin b =>
      if Req_dec_T b 0 then
        (if Req_dec_T a 0 then NaN
         else if Rlt_dec 0 a then PInf else NInf)
      else fit (a / b)
  | Fin _, PInf | Fin _, NInf => Fin 0
  | PInf, Fin b => if Rlt_dec b 0 then NInf else PInf
  | NInf, Fin b => if Rlt_dec b 0 then PInf else NInf
  | _, _ => NaN
  end.

Definition cos (x : num) : num :=
  match x with
  | Fin a => Fin (Rtrigo_def.cos a)
  | _ => NaN
  end.

Definition sin (x : num) : num :=
  match x with
  | Fin a => Fin (Rtrigo_def.sin a)
  | _ => NaN
  end.

(** [Some z] when the real [b] is the integer [z]. *)
Definition as_integer (b : R) : option Z :=
  let z := (up b - 1)%Z in
  if Req_dec_T (IZR z) b then Some z else None.

(** Power of finite operands, as [np.power] on float64:
    anything to the power zero is one; a positive base uses the real
    power, which may overflow; [0 ** b] is zero for positive [b] and
    +inf for negative [b]; a negative base has a value only for an
    integral exponent. *)
Definition pow_fin (a b : R) : num :=
  if Req_dec_T b 0 then Fin 1
  else if Rlt_dec 0 a then fit (Rpower a b)
  else if Req_dec_T a 0 then (if Rlt_dec 0 b then Fin 0 else PInf)
  else match as_integer b with
       | Some z => fit (powerRZ a z)
       | None => NaN
       end.

(** Infinite exponent: decided by comparing the magnitude of the base
    with one. *)
Definition pow_inf_exp (a : R) (positive : bool) : num :=
  if Req_dec_T (Rabs a) 1 then Fin 1
  else if Rlt_dec (Rabs a) 1
       then (if positive then Fin 0 else PInf)
       else (if positive then PInf else Fin 0).

(** Negative infinite base: the sign survives for odd integral
    exponents only. *)
Definition pow_ninf_base (b : R) : num :=
  let odd := match as_integer b with Some z => Z.odd z | None => false end in
  if Rlt_dec b 0 then Fin 0
  else if odd then NInf else PInf.

Definition pow (x y : num) : num :=
  match x, y with
  | Fin a, Fin b => pow_fin a b
  | _, Fin b =>
      if Req_dec_T b 0 then Fin 1
      else match x with
           | PInf => if Rlt_dec b 0 then Fin 0 else PInf
           | NInf => pow_ninf_base b
           | _ => NaN
           end
  | Fin a, PInf => pow_inf_exp a true
  | Fin a, NInf => pow_inf_exp a false
  | Fin a, NaN => if Req_dec_T a 1 then Fin 1 else NaN
  | NaN, _ => NaN
  | _, NaN => NaN
  | _, PInf => PInf
  | _, NInf => Fin 0
  end.

(** Comparisons; any comparison with nan is false. *)
Definition gt (x y : num) : bool :=
  match x, y with
  | NaN, _ | _, NaN => false
  | Fin a, Fin b => if Rlt_dec b a then true else false
  | PInf, PInf => false
  | PInf, _ => true
  | _, NInf => match x with NInf => false | _ => true end
  | _, _ => false
  end.

Definition lt (x y : num) : bool := gt y x.

Definition eqb (x y : num) : bool :=
  match x, y with
  | Fin a, Fin b => if Req_dec_T a b then true else false
  | PInf, PInf | NInf, NInf => true
  | _, _ => false
  end.

End Float.

Declare Scope float_scope.
Delimit Scope float_scope with float.
Bind Scope float_scope with num.
Infix "+" := Float.add : float_scope.
Infix "-" := Float.sub : float_scope.
Infix "*" := Float.mul : float_scope.
Infix "/" := Float.div : float_scope.
Infix "**" := Float.pow (at level 30, right associativity) : float_scope.

(** ** numpy arrays

    One-dimensional float arrays are lists; a scalar operand is broadcast
    over the array. *)

Module Np.

Definition array := list num.

(** [np.arange(n)] for a float [n] with integral value: [0., 1., ..., n-1]. *)
Definition arange (n : nat) : array :=
  map (fun k => Fin (INR k)) (seq 0 n).

Fixpoint zip_with (f : num -> num -> num) (xs ys : array) : array :=
  match xs, ys with
  | x :: xs', y :: ys' => f x y :: zip_with f xs' ys'
  | _, _ => []
  end.

(** array (op) array *)
Definition add : array -> array -> array := zip_with Float.add.
Definition sub : array -> array -> array := zip_with Float.sub.
Definition mul : array -> array -> array := zip_with Float.mul.

(** scalar (op) array *)
Definition sadd (s : num) (v : array) : array := map (Float.add s) v.
Definition ssub (s : num) (v : array) : array := map (Float.sub s) v.
Definition smul (s : num) (v : array) : array := map (Float.mul s) v.

(** array (op) scalar *)
Definition divs (v : array) (s : num) : array :=
  map (fun x => Float.div x s) v.
Definition pows (v : array) (s : num) : array :=
  map (fun x => Float.pow x s) v.

Definition cos : array -> array := map Float.cos.
Definition sin : array -> array := map Float.sin.

(** [v[np.where(test v)] = c]: overwrite the entries that pass [test]. *)
Definition set_where (test : num -> bool) (c : num) (v : array) : array :=
  map (fun x => if test x then c else x) v.

(** [v[::-1]] *)
Definition reversed (v : array) : array := rev v.

(** [v[k]] for an index inside the array (every index [cmap] uses is). *)
Definition item (v : array) (k : nat) : num := nth k v NaN.

End Np.

(** ** The body of [cmap] *)

(** One entry [(x, y0, y1)] of a segment table. *)
Definition segment : Type := num * num * num.

(** The object built by [LSC(name, cdict)].  matplotlib is outside the
    repository: only what [cmap] hands to the constructor is recorded. *)
Record LinearSegmentedColormap : Type := LSC {
  name : string;
  segmentdata : list (string * list segment)
}.

(** [nlev = 256.]  The source keeps the level count as a float and uses
    [int(nlev)] as loop bound; here it is the natural number, injected
    into the floats where the source computes with it. *)
Definition nlev : nat := 256.
Definition nlev_f : num := Fin (INR nlev).

Definition pi : num := Fin PI.

Section Body.

Variables start rot gamma hue : num.
Variable reverse : bool.

(** [fract = np.arange(nlev)/(nlev-1.)] *)
Definition fract_lin : Np.array :=
  Np.divs (Np.arange nlev) (nlev_f - Fin 1).

(** [angle = 2.0*pi * (start/3.0 + 1.0 + rot*fract)] *)
Definition angle : Np.array :=
  Np.smul (Fin 2 * pi)
          (Np.sadd (start / Fin 3 + Fin 1) (Np.smul rot fract_lin)).

(** [fract = fract**gamma] *)
Definition fract : Np.array := Np.pows fract_lin gamma.

(** [amp = hue*fract*(1.-fract)/2.] *)
Definition amp : Np.array :=
  Np.divs (Np.mul (Np.smul hue fract) (Np.ssub (Fin 1) fract)) (Fin 2).

(** [red = fract+amp*(-0.14861*np.cos(angle)+1.78277*np.sin(angle))] *)
Definition red_raw : Np.array :=
  Np.add fract
    (Np.mul amp (Np.add (Np.smul (Fin (- 0.14861)) (Np.cos angle))
                        (Np.smul (Fin 1.78277) (Np.sin angle)))).

(** [grn = fract+amp*(-0.29227*np.cos(angle)-0.90649*np.sin(angle))] *)
Definition grn_raw : Np.array :=
  Np.add fract
    (Np.mul amp (Np.sub (Np.smul (Fin (- 0.29227)) (Np.cos angle))
                        (Np.smul (Fin 0.90649) (Np.sin angle)))).

(** [blu = fract+amp*(1.97294*np.cos(angle))] *)
Definition blu_raw : Np.array :=
  Np.add fract (Np.mul amp (Np.smul (Fin 1.97294) (Np.cos angle))).

(** [v[np.where((v > 1.))] = 1.] followed by [v[np.where((v < 0.))] = 0.] *)
Definition clip_high (v : Np.array) : Np.array :=
  Np.set_where (fun x => Float.gt x (Fin 1)) (Fin 1) v.
Definition clip_low (v : Np.array) : Np.array :=
  Np.set_where (fun x => Float.lt x (Fin 0)) (Fin 0) v.
Definition clip (v : Np.array) : Np.array := clip_low (clip_high v).

(** [if reverse==True: v = v[::-1]] *)
Definition maybe_reverse (v : Np.array) : Np.array :=
  if reverse then Np.reversed v else v.

Definition red_final : Np.array := maybe_reverse (clip red_raw).
Definition grn_final : Np.array := maybe_reverse (clip grn_raw).
Definition blu_final : Np.array := maybe_reverse (clip blu_raw).

(** State of the table-building loop: the lists [rr], [bb], [gg]. *)
Definition tables : Type := (list segment * list segment * list segment)%type.

(** One iteration:
    [rr.append((float(k)/(nlev-1.), red[k], red[k]))] and likewise for
    [bb] and [gg].  The divisor [nlev-1.] is 255, so Python's scalar
    division cannot raise here and agrees with [Float.div]. *)
Definition loop_step (red blu grn : Np.array) (st : tables) (k : nat)
  : tables :=
  let '(rr, bb, gg) := st in
  let x := (Fin (INR k) / (nlev_f - Fin 1))%float in
  (rr ++ [(x, Np.item red k, Np.item red k)],
   bb ++ [(x, Np.item blu k, Np.item blu k)],
   gg ++ [(x, Np.item grn k, Np.item grn k)]).

(** [for k in range(0,int(nlev)): ...] starting from three empty lists. *)
Definition build_tables (red blu grn : Np.array) : tables :=
  fold_left (loop_step red blu grn) (seq 0 nlev) ([], [], []).

Definition cmap : LinearSegmentedColormap :=
  let '(rr, bb, gg) := build_tables red_final blu_final grn_final in
  LSC "cubehelix_map" [("red", rr); ("blue", bb); ("green", gg)]%string.

End Body.

(** ** Calling [cmap]

    [def cmap(start=0.5, rot=-1.5, gamma=1.0, hue=1.2, reverse=False)]:
    five parameters, each with a default.  Arguments are bound the way
    Python binds them: positional arguments fill the parameters from the
    left, keyword arguments fill the parameter they name, and a surplus
    positional argument, an unknown keyword or a parameter given twice
    raises [TypeError]. *)

Inductive pyval : Type :=
| VFloat (x : num)
| VInt (z : Z)
| VBool (b : bool).

(** Numeric value of an argument inside float arithmetic.  An integer
    is converted to the double of the same value; Python raises
    [OverflowError] when the integer is too large for a double, which is
    [None] here. *)
Definition to_float (v : pyval) : option num :=
  match v with
  | VFloat x => Some x
  | VInt z =>
      match Float.fit (IZR z) with
      | Fin r => Some (Fin r)
      | _ => None
      end
  | VBool b => Some (Fin (if b then 1 else 0))
  end.

(** [v == True] *)
Definition eq_True (v : pyval) : bool :=
  match v with
  | VBool b => b
  | VInt z => Z.eqb z 1
  | VFloat x => Float.eqb x (Fin 1)
  end.

Inductive outcome : Type :=
| Returned (m : LinearSegmentedColormap)
| Raised (exc : string).

Definition signature : list (string * pyval) :=
  [("start", VFloat (Fin 0.5)); ("rot", VFloat (Fin (- 1.5)));
   ("gamma", VFloat (Fin 1.0)); ("hue", VFloat (Fin 1.2));
   ("reverse", VBool false)]%string.

Definition slots : Type := list (string * option pyval).

Fixpoint bind_positional (sig : list (string * pyval)) (pos : list pyval)
  : option slots :=
  match sig, pos with
  | [], [] => Some []
  | [], _ :: _ => None
  | (n, _) :: sig', [] =>
      option_map (cons (n, None)) (bind_positional sig' [])
  | (n, _) :: sig', v :: pos' =>
      option_map (cons (n, Some v)) (bind_positional sig' pos')
  end.

Fixpoint bind_keyword (sl : slots) (key : string) (v : pyval)
  : option slots :=
  match sl with
  | [] => None
  | (n, cur) :: rest =>
      if String.eqb n key then
        match cur with
        | Some _ => None
        | None => Some ((n, Some v) :: rest)
        end
      else option_map (cons (n, cur)) (bind_keyword rest key v)
  end.

Fixpoint bind_keywords (sl : slots) (kw : list (string * pyval))
  : option slots :=
  match kw with
  | [] => Some sl
  | (key, v) :: kw' =>
      match bind_keyword sl key v with
      | Some sl' => bind_keywords sl' kw'
      | None => None
      end
  end.

Fixpoint fill_defaults (sig : list (string * pyval)) (sl : slots)
  : list pyval :=
  match sig, sl with
  | (_, d) :: sig', (_, cur) :: sl' =>
      match cur with Some v => v | None => d end :: fill_defaults sig' sl'
  | _, _ => []
  end.

Definition bind_arguments (pos : list pyval) (kw : list (string * pyval))
  : option (list pyval) :=
  match bind_positional signature pos with
  | None => None
  | Some sl => option_map (fill_defaults signature) (bind_keywords sl kw)
  end.

Definition cmap_call (pos : list pyval) (kw : list (string * pyval))
  : outcome :=
  match bind_arguments pos kw with
  | Some [start; rot; gamma; hue; reverse] =>
      match to_float start, to_float rot, to_float gamma, to_float hue with
      | Some s, Some r, Some g, Some h =>
          Returned (cmap s r g h (eq_True reverse))
      | _, _, _, _ => Raised "OverflowError"
      end
  | _ => Raised "TypeError"
  end.

(** ** Reading a colour map as a palette

    The palette interface of the specification, read off the segment
    tables: sample [k] has the coordinate and the red value of entry [k]
    of the red table, and the green and blue values of entry [k] of the
    other two. *)

Fixpoint getitem (d : list (string * list segment)) (key : string)
  : list segment :=
  match d with
  | [] => []
  | (n, v) :: rest => if String.eqb n key then v else getitem rest key
  end.

Definition channel (key : string) (m : LinearSegmentedColormap)
  : list segment := getitem (segmentdata m) key.

Definition size (m : LinearSegmentedColormap) : nat :=
  List.length (channel "red" m).

Record sample : Type := Sample {
  t_of : num;
  r_of : num;
  g_of : num;
  b_of : num
}.

Definition sample_at (m : LinearSegmentedColormap) (k : nat)
  : option sample :=
  match nth_error (channel "red" m) k,
        nth_error (channel "green" m) k,
        nth_error (channel "blue" m) k with
  | Some (t, r, _), Some (_, g, _), Some (_, b, _) =>
      Some (Sample t r g b)
  | _, _, _ => None
  end.

(** A finite value inside the closed unit interval. *)
Definition in_unit (x : num) : Prop :=
  exists v : R, x = Fin v /\ 0 <= v <= 1.

(** ** The per-sample formulas of the specification

    Written from the algorithm description: for sample index [k] of [N],
    [t = k/(N-1)], [angle = 2 pi (start/3 + 1 + rot t)], [f = t^gamma],
    [amp = hue f (1 - f) / 2] and the three channel equations. *)

Module Reference.

Section Formulas.

Variables start rot gamma hue : num.
Variable N : nat.
Variable k : nat.

Definition t : num := (Fin (INR k) / Fin (INR (N - 1)))%float.

Definition angle : num :=
  (Fin (2 * PI) * (start / Fin 3 + Fin 1 + rot * t))%float.

Definition f : num := (t ** gamma)%float.

Definition amp : num := (hue * f * (Fin 1 - f) / Fin 2)%float.

Definition red : num :=
  (f + amp * (Fin (- 0.14861) * Float.cos angle
              + Fin 1.78277 * Float.sin angle))%float.

Definition green : num :=
  (f + amp * (Fin (- 0.29227) * Float.cos angle
              - Fin 0.90649 * Float.sin angle))%float.

Definition blue : num :=
  (f + amp * (Fin 1.97294 * Float.cos angle))%float.

End Formulas.

(** Hard clamp to the unit interval: above one gives one, below zero
    gives zero. *)
Definition clamp (x : num) : num :=
  if Float.gt x (Fin 1) then Fin 1
  else if Float.lt x (Fin 0) then Fin 0
  else x.

End Reference.

(** The table entry that iteration [k] of the loop appends for the
    array [v]. *)
Definition row (v : Np.array) (k : nat) : segment :=
  ((Fin (INR k) / (nlev_f - Fin 1))%float, Np.item v k, Np.item v k).

(** The position in the computed arrays whose colour ends up at table
    index [k]. *)
Definition source_index (reverse : bool) (k : nat) : nat :=
  if reverse then (nlev - 1 - k)%nat else k.

(** [out] is the finite value [raw] clamped to the unit interval:
    one when [raw] is above one, zero when it is below zero, [raw] itself
    otherwise. *)
Definition clamped_from (raw out : num) : Prop :=
  exists x : R,
    raw = Fin x
    /\ ((1 < x /\ out = Fin 1)
        \/ (x < 0 /\ out = Fin 0)
        \/ (0 <= x <= 1 /\ out = Fin x)).

(** An argument that numpy takes as a machine number whatever its
    version: a float, a bool, or an integer of the 64-bit range. *)
Definition machine_number (v : pyval) : Prop :=
  match v with
  | VInt z => (- 2 ^ 63 <= z < 2 ^ 63)%Z
  | _ => True
  end.

(** * Verification *)

(** ** Arrays *)

Section ArrayFacts.

Lemma item_map (f : num -> num) (v : Np.array) (k : nat) :
  (k < List.length v)%nat ->
  Np.item (map f v) k = f (Np.item v k).
Proof.
  intro Hk. unfold Np.item.
  rewrite (nth_indep (map f v) NaN (f NaN)) by (rewrite length_map; exact Hk).
  apply map_nth.
Qed.

Lemma length_zip_with (f : num -> num -> num) (xs ys : Np.array) :
  List.length (Np.zip_with f xs ys)
  = Nat.min (List.length xs) (List.length ys).
Proof.
  revert ys. induction xs as [|x xs IH]; intros [|y ys]; simpl; auto.
Qed.

Lemma item_zip_with (f : num -> num -> num) (xs ys : Np.array) (k : nat) :
  (k < List.length xs)%nat -> (k < List.length ys)%nat ->
  Np.item (Np.zip_with f xs ys) k = f (Np.item xs k) (Np.item ys k).
Proof.
  unfold Np.item. revert ys k.
  induction xs as [|x xs IH]; intros [|y ys] [|k] Hx Hy;
    simpl in *; try lia; auto.
  apply IH; lia.
Qed.

Lemma length_arange (n : nat) : List.length (Np.arange n) = n.
Proof. unfold Np.arange. now rewrite length_map, length_seq. Qed.

Lemma item_arange (n k : nat) :
  (k < n)%nat -> Np.item (Np.arange n) k = Fin (INR k).
Proof.
  intro Hk. unfold Np.arange, Np.item.
  rewrite (nth_indep _ NaN (Fin (INR 0)))
    by (now rewrite length_map, length_seq).
  rewrite (map_nth (fun i => Fin (INR i))), seq_nth by exact Hk.
  reflexivity.
Qed.

Lemma item_reversed (v : Np.array) (k : nat) :
  (k < List.length v)%nat ->
  Np.item (Np.reversed v) k = Np.item v (List.length v - 1 - k).
Proof.
  intro Hk. unfold Np.item, Np.reversed. rewrite rev_nth by exact Hk.
  f_equal. lia.
Qed.

End ArrayFacts.

(** ** The table-building loop *)

Section LoopFacts.

Variables red blu grn : Np.array.

Lemma loop_from (ks : list nat) (rr bb gg : list segment) :
  fold_left (loop_step red blu grn) ks (rr, bb, gg)
  = (rr ++ map (row red) ks, bb ++ map (row blu) ks, gg ++ map (row grn) ks).
Proof.
  revert rr bb gg. induction ks as [|k ks IH]; intros rr bb gg; simpl.
  - now rewrite !app_nil_r.
  - rewrite IH, <- !app_assoc. reflexivity.
Qed.

Lemma build_tables_rows :
  build_tables red blu grn
  = (map (row red) (seq 0 nlev), map (row blu) (seq 0 nlev),
     map (row grn) (seq 0 nlev)).
Proof. unfold build_tables. now rewrite loop_from. Qed.

End LoopFacts.

(** ** Results that stay in range *)

Lemma max_float_below_threshold : max_float < overflow_threshold.
Proof.
  unfold max_float, overflow_threshold. apply IZR_lt. reflexivity.
Qed.

Lemma fit_fin (x : R) :
  - overflow_threshold < x < overflow_threshold -> Float.fit x = Fin x.
Proof.
  intros [Hlo Hhi]. unfold Float.fit.
  destruct (Rle_dec overflow_threshold x); [lra|].
  destruct (Rle_dec x (- overflow_threshold)); [lra|reflexivity].
Qed.

Lemma fit_overflow (x : R) : overflow_threshold <= x -> Float.fit x = PInf.
Proof.
  intro H. unfold Float.fit.
  destruct (Rle_dec overflow_threshold x); [reflexivity|contradiction].
Qed.

Lemma add_fin (a b : R) :
  - overflow_threshold < a + b < overflow_threshold ->
  (Fin a + Fin b)%float = Fin (a + b).
Proof. intro H. cbn [Float.add]. now apply fit_fin. Qed.

Lemma sub_fin (a b : R) :
  - overflow_threshold < a - b < overflow_threshold ->
  (Fin a - Fin b)%float = Fin (a - b).
Proof.
  intro H. unfold Float.sub. cbn [Float.opp Float.add]. now apply fit_fin.
Qed.

Lemma mul_fin (a b : R) :
  - overflow_threshold < a * b < overflow_threshold ->
  (Fin a * Fin b)%float = Fin (a * b).
Proof. intro H. cbn [Float.mul]. now apply fit_fin. Qed.

Lemma div_fin (a b : R) :
  b <> 0 -> - overflow_threshold < a / b < overflow_threshold ->
  (Fin a / Fin b)%float = Fin (a / b).
Proof.
  intros Hb H. unfold Float.div.
  destruct (Req_dec_T b 0); [contradiction|]. now apply fit_fin.
Qed.

(** Closes a range side condition whose bound follows by linear
    arithmetic from the hypotheses. *)
Ltac in_range :=
  unfold overflow_threshold, overflow_threshold_Z, max_float, max_float_Z
    in *;
  lra.

(** A product of two bounded factors is bounded by the product of the
    bounds. *)
Lemma product_bound (x y a b : R) :
  - a <= x <= a -> - b <= y <= b -> - (a * b) <= x * y <= a * b.
Proof.
  intros Hx Hy.
  assert (Ha : Rabs x <= a) by (apply Rabs_le; exact Hx).
  assert (Hb : Rabs y <= b) by (apply Rabs_le; exact Hy).
  assert (H : Rabs (x * y) <= a * b).
  { rewrite Rabs_mult.
    apply Rmult_le_compat; try apply Rabs_pos; assumption. }
  pose proof (Rle_abs (x * y)) as Hhi.
  pose proof (Rle_abs (- (x * y))) as Hlo. rewrite Rabs_Ropp in Hlo. lra.
Qed.

Lemma two_pi_bounds : 0 < 2 * PI <= 8.
Proof. pose proof PI_RGT_0. pose proof PI_4. lra. Qed.

Lemma two_pi_fin : (Fin 2 * pi)%float = Fin (2 * PI).
Proof.
  unfold pi. apply mul_fin. pose proof two_pi_bounds. in_range.
Qed.

(** ** The arrays of [cmap], entry by entry *)

Lemma INR_nlev : INR nlev = 256.
Proof. rewrite INR_IZR_INZ. reflexivity. Qed.

Lemma INR_nlev_minus_one : INR (nlev - 1) = 255.
Proof. rewrite INR_IZR_INZ. reflexivity. Qed.

Lemma nlev_minus_one : (nlev_f - Fin 1)%float = Fin (INR (nlev - 1)).
Proof.
  unfold nlev_f. rewrite sub_fin by (rewrite INR_nlev; in_range).
  f_equal. rewrite INR_nlev, INR_nlev_minus_one. lra.
Qed.

Lemma length_fract_lin : List.length fract_lin = nlev.
Proof. unfold fract_lin, Np.divs. now rewrite length_map, length_arange. Qed.

Lemma length_angle start rot : List.length (angle start rot) = nlev.
Proof.
  unfold angle, Np.smul, Np.sadd. now rewrite !length_map, length_fract_lin.
Qed.

Lemma length_fract gamma : List.length (fract gamma) = nlev.
Proof. unfold fract, Np.pows. now rewrite length_map, length_fract_lin. Qed.

Lemma length_amp gamma hue : List.length (amp gamma hue) = nlev.
Proof.
  unfold amp, Np.divs, Np.mul, Np.smul, Np.ssub.
  rewrite length_map, length_zip_with, !length_map, length_fract.
  apply Nat.min_id.
Qed.

Lemma item_fract_lin k :
  (k < nlev)%nat -> Np.item fract_lin k = Reference.t nlev k.
Proof.
  intro Hk. unfold fract_lin, Np.divs.
  rewrite item_map by (now rewrite length_arange).
  rewrite item_arange by exact Hk.
  unfold Reference.t. now rewrite nlev_minus_one.
Qed.

Lemma item_angle start rot k :
  (k < nlev)%nat ->
  Np.item (angle start rot) k = Reference.angle start rot nlev k.
Proof.
  intro Hk. unfold angle, Np.smul, Np.sadd.
  rewrite item_map by (now rewrite !length_map, length_fract_lin).
  rewrite item_map by (now rewrite length_map, length_fract_lin).
  rewrite item_map by (now rewrite length_fract_lin).
  rewrite item_fract_lin by exact Hk.
  unfold Reference.angle. now rewrite two_pi_fin.
Qed.

Lemma item_fract gamma k :
  (k < nlev)%nat -> Np.item (fract gamma) k = Reference.f gamma nlev k.
Proof.
  intro Hk. unfold fract, Np.pows.
  rewrite item_map by (now rewrite length_fract_lin).
  now rewrite item_fract_lin.
Qed.

Lemma item_amp gamma hue k :
  (k < nlev)%nat ->
  Np.item (amp gamma hue) k = Reference.amp gamma hue nlev k.
Proof.
  intro Hk. unfold amp, Np.divs, Np.mul, Np.smul, Np.ssub.
  rewrite item_map
    by (rewrite length_zip_with, !length_map, length_fract, Nat.min_id;
        exact Hk).
  rewrite item_zip_with by (now rewrite length_map, length_fract).
  rewrite !item_map by (now rewrite length_fract).
  now rewrite item_fract.
Qed.

Lemma item_cos start rot k :
  (k < nlev)%nat ->
  Np.item (Np.cos (angle start rot)) k
  = Float.cos (Reference.angle start rot nlev k).
Proof.
  intro Hk. unfold Np.cos.
  rewrite item_map by (now rewrite length_angle). now rewrite item_angle.
Qed.

Lemma item_sin start rot k :
  (k < nlev)%nat ->
  Np.item (Np.sin (angle start rot)) k
  = Float.sin (Reference.angle start rot nlev k).
Proof.
  intro Hk. unfold Np.sin.
  rewrite item_map by (now rewrite length_angle). now rewrite item_angle.
Qed.

Lemma length_trig start rot :
  List.length (Np.cos (angle start rot)) = nlev
  /\ List.length (Np.sin (angle start rot)) = nlev.
Proof. unfold Np.cos, Np.sin. now rewrite !length_map, length_angle. Qed.

Lemma length_red_raw start rot gamma hue :
  List.length (red_raw start rot gamma hue) = nlev.
Proof.
  destruct (length_trig start rot) as [Hc Hs].
  unfold red_raw, Np.add, Np.mul, Np.smul.
  rewrite !length_zip_with, !length_map, length_fract, length_amp, Hc, Hs.
  now rewrite !Nat.min_id.
Qed.

Lemma length_grn_raw start rot gamma hue :
  List.length (grn_raw start rot gamma hue) = nlev.
Proof.
  destruct (length_trig start rot) as [Hc Hs].
  unfold grn_raw, Np.add, Np.sub, Np.mul, Np.smul.
  rewrite !length_zip_with, !length_map, length_fract, length_amp, Hc, Hs.
  now rewrite !Nat.min_id.
Qed.

Lemma length_blu_raw start rot gamma hue :
  List.length (blu_raw start rot gamma hue) = nlev.
Proof.
  destruct (length_trig start rot) as [Hc Hs].
  unfold blu_raw, Np.add, Np.mul, Np.smul.
  rewrite !length_zip_with, !length_map, length_fract, length_amp, Hc.
  now rewrite !Nat.min_id.
Qed.

Lemma item_red_raw start rot gamma hue k :
  (k < nlev)%nat ->
  Np.item (red_raw start rot gamma hue) k
  = Reference.red start rot gamma hue nlev k.
Proof.
  intro Hk. destruct (length_trig start rot) as [Hc Hs].
  unfold red_raw, Np.add, Np.mul, Np.smul.
  rewrite item_zip_with;
    rewrite ?length_zip_with, ?length_map, ?length_fract, ?length_amp,
            ?Hc, ?Hs, ?Nat.min_id; try exact Hk.
  rewrite item_zip_with;
    rewrite ?length_zip_with, ?length_map, ?length_fract, ?length_amp,
            ?Hc, ?Hs, ?Nat.min_id; try exact Hk.
  rewrite item_zip_with; rewrite ?length_map, ?Hc, ?Hs; try exact Hk.
  rewrite !item_map by (rewrite ?Hc, ?Hs; exact Hk).
  now rewrite item_fract, item_amp, item_cos, item_sin.
Qed.

Lemma item_grn_raw start rot gamma hue k :
  (k < nlev)%nat ->
  Np.item (grn_raw start rot gamma hue) k
  = Reference.green start rot gamma hue nlev k.
Proof.
  intro Hk. destruct (length_trig start rot) as [Hc Hs].
  unfold grn_raw, Np.add, Np.sub, Np.mul, Np.smul.
  rewrite item_zip_with;
    rewrite ?length_zip_with, ?length_map, ?length_fract, ?length_amp,
            ?Hc, ?Hs, ?Nat.min_id; try exact Hk.
  rewrite item_zip_with;
    rewrite ?length_zip_with, ?length_map, ?length_fract, ?length_amp,
            ?Hc, ?Hs, ?Nat.min_id; try exact Hk.
  rewrite item_zip_with; rewrite ?length_map, ?Hc, ?Hs; try exact Hk.
  rewrite !item_map by (rewrite ?Hc, ?Hs; exact Hk).
  now rewrite item_fract, item_amp, item_cos, item_sin.
Qed.

Lemma item_blu_raw start rot gamma hue k :
  (k < nlev)%nat ->
  Np.item (blu_raw start rot gamma hue) k
  = Reference.blue start rot gamma hue nlev k.
Proof.
  intro Hk. destruct (length_trig start rot) as [Hc Hs].
  unfold blu_raw, Np.add, Np.mul, Np.smul.
  rewrite item_zip_with;
    rewrite ?length_zip_with, ?length_map, ?length_fract, ?length_amp,
            ?Hc, ?Nat.min_id; try exact Hk.
  rewrite item_zip_with;
    rewrite ?length_map, ?length_amp, ?Hc; try exact Hk.
  rewrite !item_map by (rewrite ?Hc; exact Hk).
  now rewrite item_fract, item_amp, item_cos.
Qed.

(** ** Clipping and reversal *)

Lemma clip_entry (x : num) :
  (if Float.lt (if Float.gt x (Fin 1) then Fin 1 else x) (Fin 0)
   then Fin 0
   else (if Float.gt x (Fin 1) then Fin 1 else x))
  = Reference.clamp x.
Proof.
  unfold Reference.clamp. destruct (Float.gt x (Fin 1)); [|reflexivity].
  unfold Float.lt, Float.gt. destruct (Rlt_dec 1 0) as [H|H]; [lra|reflexivity].
Qed.

Lemma length_clip (v : Np.array) : List.length (clip v) = List.length v.
Proof.
  unfold clip, clip_low, clip_high, Np.set_where. now rewrite !length_map.
Qed.

Lemma item_clip (v : Np.array) (k : nat) :
  (k < List.length v)%nat ->
  Np.item (clip v) k = Reference.clamp (Np.item v k).
Proof.
  intro Hk. unfold clip, clip_low, clip_high, Np.set_where.
  rewrite item_map by (now rewrite length_map).
  rewrite item_map by exact Hk.
  apply clip_entry.
Qed.

Lemma length_maybe_reverse (reverse : bool) (v : Np.array) :
  List.length (maybe_reverse reverse v) = List.length v.
Proof.
  unfold maybe_reverse, Np.reversed. destruct reverse; [apply length_rev|easy].
Qed.

Lemma item_maybe_reverse (reverse : bool) (v : Np.array) (k : nat) :
  List.length v = nlev -> (k < nlev)%nat ->
  Np.item (maybe_reverse reverse v) k = Np.item v (source_index reverse k).
Proof.
  intros Hlen Hk. unfold maybe_reverse, source_index.
  destruct reverse; [|reflexivity].
  rewrite item_reversed by (now rewrite Hlen). now rewrite Hlen.
Qed.

Lemma source_index_lt (reverse : bool) (k : nat) :
  (k < nlev)%nat -> (source_index reverse k < nlev)%nat.
Proof. unfold source_index. destruct reverse; lia. Qed.

Lemma item_red_final start rot gamma hue reverse k :
  (k < nlev)%nat ->
  Np.item (red_final start rot gamma hue reverse) k
  = Reference.clamp
      (Reference.red start rot gamma hue nlev (source_index reverse k)).
Proof.
  intro Hk. pose proof (source_index_lt reverse k Hk) as Hs.
  unfold red_final.
  rewrite item_maybe_reverse
    by (rewrite ?length_clip, ?length_red_raw; easy).
  rewrite item_clip by (now rewrite length_red_raw).
  now rewrite item_red_raw.
Qed.

Lemma item_grn_final start rot gamma hue reverse k :
  (k < nlev)%nat ->
  Np.item (grn_final start rot gamma hue reverse) k
  = Reference.clamp
      (Reference.green start rot gamma hue nlev (source_index reverse k)).
Proof.
  intro Hk. pose proof (source_index_lt reverse k Hk) as Hs.
  unfold grn_final.
  rewrite item_maybe_reverse
    by (rewrite ?length_clip, ?length_grn_raw; easy).
  rewrite item_clip by (now rewrite length_grn_raw).
  now rewrite item_grn_raw.
Qed.

Lemma item_blu_final start rot gamma hue reverse k :
  (k < nlev)%nat ->
  Np.item (blu_final start rot gamma hue reverse) k
  = Reference.clamp
      (Reference.blue start rot gamma hue nlev (source_index reverse k)).
Proof.
  intro Hk. pose proof (source_index_lt reverse k Hk) as Hs.
  unfold blu_final.
  rewrite item_maybe_reverse
    by (rewrite ?length_clip, ?length_blu_raw; easy).
  rewrite item_clip by (now rewrite length_blu_raw).
  now rewrite item_blu_raw.
Qed.

(** ** The returned colour map *)

Lemma cmap_tables start rot gamma hue reverse :
  cmap start rot gamma hue reverse
  = LSC "cubehelix_map"
      [("red", map (row (red_final start rot gamma hue reverse)) (seq 0 nlev));
       ("blue", map (row (blu_final start rot gamma hue reverse)) (seq 0 nlev));
       ("green", map (row (grn_final start rot gamma hue reverse)) (seq 0 nlev))
      ]%string.
Proof. unfold cmap. now rewrite build_tables_rows. Qed.

Lemma nth_error_rows (v : Np.array) (k : nat) :
  (k < nlev)%nat ->
  nth_error (map (row v) (seq 0 nlev)) k = Some (row v k).
Proof.
  intro Hk. rewrite nth_error_map.
  rewrite (nth_error_nth' _ 0%nat) by (now rewrite length_seq).
  now rewrite seq_nth.
Qed.

Lemma size_cmap start rot gamma hue reverse :
  size (cmap start rot gamma hue reverse) = nlev.
Proof.
  rewrite cmap_tables. unfold size, channel. cbn [segmentdata].
  change (getitem _ "red") with
    (map (row (red_final start rot gamma hue reverse)) (seq 0 nlev)).
  now rewrite length_map, length_seq.
Qed.

Lemma sample_at_cmap start rot gamma hue reverse k :
  (k < nlev)%nat ->
  sample_at (cmap start rot gamma hue reverse) k
  = Some (Sample
            (Reference.t nlev k)
            (Reference.clamp (Reference.red start rot gamma hue nlev
                                (source_index reverse k)))
            (Reference.clamp (Reference.green start rot gamma hue nlev
                                (source_index reverse k)))
            (Reference.clamp (Reference.blue start rot gamma hue nlev
                                (source_index reverse k)))).
Proof.
  intro Hk. rewrite cmap_tables. unfold sample_at, channel.
  cbn [segmentdata].
  change (getitem _ "red") with
    (map (row (red_final start rot gamma hue reverse)) (seq 0 nlev)).
  change (getitem _ "green") with
    (map (row (grn_final start rot gamma hue reverse)) (seq 0 nlev)).
  change (getitem _ "blue") with
    (map (row (blu_final start rot gamma hue reverse)) (seq 0 nlev)).
  rewrite !nth_error_rows by exact Hk. unfold row.
  rewrite item_red_final, item_grn_final, item_blu_final by exact Hk.
  unfold Reference.t. now rewrite nlev_minus_one.
Qed.

(** ** Arithmetic on finite values *)

Lemma INR_lt_nlev (k : nat) : (k < nlev)%nat -> 0 <= INR k <= 255.
Proof.
  intro Hk. split; [apply pos_INR|].
  rewrite <- INR_nlev_minus_one. apply le_INR. lia.
Qed.

Lemma t_value (k : nat) :
  (k < nlev)%nat -> Reference.t nlev k = Fin (INR k / 255).
Proof.
  intro Hk. pose proof (INR_lt_nlev k Hk) as Hb.
  unfold Reference.t. rewrite INR_nlev_minus_one.
  apply div_fin; [lra|in_range].
Qed.

Lemma t_first : Reference.t nlev 0 = Fin 0.
Proof.
  rewrite t_value by (unfold nlev; lia). f_equal. simpl. lra.
Qed.

Lemma t_last : Reference.t nlev (nlev - 1) = Fin 1.
Proof.
  rewrite t_value by (unfold nlev; lia).
  rewrite INR_nlev_minus_one. f_equal. lra.
Qed.

(** The angle is finite when [start] and [rot] are at most [1e300] in
    magnitude. *)
Lemma angle_value (s r : R) (k : nat) :
  - 1e300 <= s <= 1e300 -> - 1e300 <= r <= 1e300 -> (k < nlev)%nat ->
  Reference.angle (Fin s) (Fin r) nlev k
  = Fin (2 * PI * (s / 3 + 1 + r * (INR k / 255))).
Proof.
  intros Hs Hr Hk. pose proof (INR_lt_nlev k Hk) as Hb.
  pose proof two_pi_bounds as Hpi.
  assert (Ht : - 1 <= INR k / 255 <= 1) by lra.
  assert (Hr' : - (1e300) <= r <= 1e300) by lra.
  pose proof (product_bound r (INR k / 255) 1e300 1 Hr' Ht) as Hrt.
  assert (Hsum : - (3e300) <= s / 3 + 1 + r * (INR k / 255) <= 3e300)
    by lra.
  assert (Hpi' : - 8 <= 2 * PI <= 8) by lra.
  pose proof (product_bound (2 * PI) _ 8 3e300 Hpi' Hsum) as Hang.
  unfold Reference.angle. rewrite t_value by exact Hk.
  rewrite div_fin by (try lra; in_range).
  rewrite add_fin by in_range.
  rewrite mul_fin by in_range.
  rewrite add_fin by in_range.
  apply mul_fin. in_range.
Qed.

(** The real power of a base in (0,1] with a positive exponent stays in
    (0,1]. *)
Lemma Rpower_unit (x y : R) :
  0 < x <= 1 -> 0 < y -> 0 < Rpower x y <= 1.
Proof.
  intros [Hx0 Hx1] Hy. unfold Rpower. split; [apply exp_pos|].
  rewrite <- exp_0.
  assert (Hln : ln x <= 0).
  { rewrite <- ln_1. destruct Hx1 as [Hlt|Heq].
    - left. apply ln_increasing; assumption.
    - right. now rewrite Heq. }
  assert (Hprod : y * ln x <= 0) by nra.
  destruct Hprod as [Hlt|Heq].
  - left. now apply exp_increasing.
  - right. now rewrite Heq.
Qed.

(** For a non-negative exponent the warped fraction is a finite value of
    the unit interval. *)
Lemma f_unit (g : R) (k : nat) :
  0 <= g -> (k < nlev)%nat ->
  exists v, Reference.f (Fin g) nlev k = Fin v /\ 0 <= v <= 1.
Proof.
  intros Hg Hk. pose proof (INR_lt_nlev k Hk) as Hb.
  unfold Reference.f. rewrite t_value by exact Hk.
  unfold Float.pow, Float.pow_fin.
  destruct (Req_dec_T g 0) as [Hz|Hnz].
  - exists 1. split; [reflexivity|lra].
  - destruct (Rlt_dec 0 (INR k / 255)) as [Hpos|Hnpos].
    + exists (Rpower (INR k / 255) g).
      assert (0 < Rpower (INR k / 255) g <= 1)
        by (apply Rpower_unit; lra).
      split; [apply fit_fin; in_range|lra].
    + destruct (Req_dec_T (INR k / 255) 0) as [Hz|Hnz'].
      * destruct (Rlt_dec 0 g) as [Hg'|Hg']; [|lra].
        exists 0. split; [reflexivity|lra].
      * exfalso. lra.
Qed.

Lemma f_first (g : R) : 0 < g -> Reference.f (Fin g) nlev 0 = Fin 0.
Proof.
  intro Hg. unfold Reference.f. rewrite t_first.
  unfold Float.pow, Float.pow_fin.
  destruct (Req_dec_T g 0); [lra|].
  destruct (Rlt_dec 0 0); [lra|].
  destruct (Req_dec_T 0 0); [|lra].
  destruct (Rlt_dec 0 g); [reflexivity|lra].
Qed.

Lemma f_last (g : R) : Reference.f (Fin g) nlev (nlev - 1) = Fin 1.
Proof.
  unfold Reference.f. rewrite t_last.
  unfold Float.pow, Float.pow_fin.
  destruct (Req_dec_T g 0); [reflexivity|].
  destruct (Rlt_dec 0 1); [|lra].
  assert (H1 : Rpower 1 g = 1)
    by (unfold Rpower; now rewrite ln_1, Rmult_0_r, exp_0).
  rewrite H1. apply fit_fin. in_range.
Qed.

(** The amplitude of a fraction in the unit interval, for a [hue] that
    is a double: no intermediate product leaves the range. *)
Lemma amp_value (g h v : R) (k : nat) :
  - max_float <= h <= max_float -> 0 <= v <= 1 ->
  Reference.f (Fin g) nlev k = Fin v ->
  Reference.amp (Fin g) (Fin h) nlev k = Fin (h * v * (1 - v) / 2)
  /\ - (max_float / 2) <= h * v * (1 - v) / 2 <= max_float / 2.
Proof.
  intros Hh Hv Hf. pose proof max_float_below_threshold as Hmax.
  assert (Hv' : - 1 <= v <= 1) by lra.
  pose proof (product_bound h v max_float 1 Hh Hv') as Hhv.
  assert (Hw : - 1 <= 1 - v <= 1) by lra.
  assert (Hhv' : - (max_float * 1) <= h * v <= max_float * 1) by lra.
  pose proof (product_bound (h * v) (1 - v) (max_float * 1) 1 Hhv' Hw)
    as Hhvw.
  unfold Reference.amp. rewrite Hf.
  rewrite mul_fin by lra. rewrite sub_fin by in_range.
  rewrite mul_fin by lra. rewrite div_fin by lra.
  split; [reflexivity|lra].
Qed.

Lemma trig_bounds (a : R) : - 1 <= cos a <= 1 /\ - 1 <= sin a <= 1.
Proof. split; [apply COS_bound|apply SIN_bound]. Qed.

(** A coefficient of magnitude at most two times a cosine or sine. *)
Lemma coefficient_times_trig (c x : R) :
  - 2 <= c <= 2 -> - 1 <= x <= 1 ->
  (Fin c * Fin x)%float = Fin (c * x) /\ - 2 <= c * x <= 2.
Proof.
  intros Hc Hx. pose proof (product_bound c x 2 1 Hc Hx) as H.
  split; [apply mul_fin; in_range|lra].
Qed.

(** A channel value [f + amp * T] with [f] in the unit interval, [amp]
    at most half the largest double and [T] at most two in magnitude. *)
Lemma channel_sum (v A T : R) :
  0 <= v <= 1 -> - (max_float / 2) <= A <= max_float / 2 ->
  - 2 <= T <= 2 ->
  (Fin v + Fin A * Fin T)%float = Fin (v + A * T).
Proof.
  intros Hv HA HT.
  pose proof (product_bound A T (max_float / 2) 2 HA HT) as HAT.
  rewrite mul_fin by in_range. apply add_fin. in_range.
Qed.

Section FiniteChannels.

Variables s r g h v : R.
Variable k : nat.
Hypothesis Hs : - 1e300 <= s <= 1e300.
Hypothesis Hr : - 1e300 <= r <= 1e300.
Hypothesis Hh : - max_float <= h <= max_float.
Hypothesis Hk : (k < nlev)%nat.
Hypothesis Hv : 0 <= v <= 1.
Hypothesis Hf : Reference.f (Fin g) nlev k = Fin v.

Let a : R := 2 * PI * (s / 3 + 1 + r * (INR k / 255)).

Lemma red_explicit :
  Reference.red (Fin s) (Fin r) (Fin g) (Fin h) nlev k
  = Fin (v + h * v * (1 - v) / 2 * (- 0.14861 * cos a + 1.78277 * sin a)).
Proof.
  destruct (amp_value g h v k Hh Hv Hf) as [Hamp HA].
  destruct (trig_bounds a) as [Hc Hsn].
  unfold Reference.red.
  rewrite Hamp, Hf, (angle_value s r k Hs Hr Hk). fold a.
  cbn [Float.cos Float.sin].
  destruct (coefficient_times_trig (- 0.14861) (cos a)) as [-> Hx];
    [lra|exact Hc|].
  destruct (coefficient_times_trig 1.78277 (sin a)) as [-> Hy];
    [lra|exact Hsn|].
  rewrite add_fin by in_range.
  apply channel_sum; [exact Hv|exact HA|lra].
Qed.

Lemma green_explicit :
  Reference.green (Fin s) (Fin r) (Fin g) (Fin h) nlev k
  = Fin (v + h * v * (1 - v) / 2 * (- 0.29227 * cos a - 0.90649 * sin a)).
Proof.
  destruct (amp_value g h v k Hh Hv Hf) as [Hamp HA].
  destruct (trig_bounds a) as [Hc Hsn].
  unfold Reference.green.
  rewrite Hamp, Hf, (angle_value s r k Hs Hr Hk). fold a.
  cbn [Float.cos Float.sin].
  destruct (coefficient_times_trig (- 0.29227) (cos a)) as [-> Hx];
    [lra|exact Hc|].
  destruct (coefficient_times_trig 0.90649 (sin a)) as [-> Hy];
    [lra|exact Hsn|].
  rewrite sub_fin by in_range.
  apply channel_sum; [exact Hv|exact HA|lra].
Qed.

Lemma blue_explicit :
  Reference.blue (Fin s) (Fin r) (Fin g) (Fin h) nlev k
  = Fin (v + h * v * (1 - v) / 2 * (1.97294 * cos a)).
Proof.
  destruct (amp_value g h v k Hh Hv Hf) as [Hamp HA].
  destruct (trig_bounds a) as [Hc _].
  unfold Reference.blue.
  rewrite Hamp, Hf, (angle_value s r k Hs Hr Hk). fold a.
  cbn [Float.cos].
  destruct (coefficient_times_trig 1.97294 (cos a)) as [-> Hx];
    [lra|exact Hc|].
  apply channel_sum; [exact Hv|exact HA|lra].
Qed.

(** Where the fraction is zero or one the amplitude vanishes and the
    three channels equal the fraction. *)
Lemma channels_where_amp_vanishes :
  v = 0 \/ v = 1 ->
  Reference.red (Fin s) (Fin r) (Fin g) (Fin h) nlev k = Fin v
  /\ Reference.green (Fin s) (Fin r) (Fin g) (Fin h) nlev k = Fin v
  /\ Reference.blue (Fin s) (Fin r) (Fin g) (Fin h) nlev k = Fin v.
Proof.
  intro Hv01. rewrite red_explicit, green_explicit, blue_explicit.
  repeat split; f_equal; destruct Hv01 as [-> | ->]; lra.
Qed.

End FiniteChannels.

(** Clamping a finite value lands in the unit interval; a value already
    there is left alone. *)
Lemma clamp_fin_unit (x : R) : in_unit (Reference.clamp (Fin x)).
Proof.
  unfold Reference.clamp, Float.lt, Float.gt.
  destruct (Rlt_dec 1 x) as [H1|H1].
  - exists 1. split; [reflexivity|lra].
  - destruct (Rlt_dec x 0) as [H0|H0].
    + exists 0. split; [reflexivity|lra].
    + exists x. split; [reflexivity|lra].
Qed.

Lemma clamp_id (x : R) : 0 <= x <= 1 -> Reference.clamp (Fin x) = Fin x.
Proof.
  intros [H0 H1]. unfold Reference.clamp, Float.lt, Float.gt.
  destruct (Rlt_dec 1 x); [lra|]. destruct (Rlt_dec x 0); [lra|reflexivity].
Qed.

Lemma clamp_fin_clamped (x : R) :
  clamped_from (Fin x) (Reference.clamp (Fin x)).
Proof.
  exists x. split; [reflexivity|].
  unfold Reference.clamp, Float.lt, Float.gt.
  destruct (Rlt_dec 1 x) as [H1|H1]; [left; split; [exact H1|reflexivity]|].
  destruct (Rlt_dec x 0) as [H0|H0].
  - right. left. split; [exact H0|reflexivity].
  - right. right. split; [lra|reflexivity].
Qed.

Lemma not_in_unit_nan : ~ in_unit NaN.
Proof. intros [v [H _]]. discriminate H. Qed.

Lemma clamp_zero : Reference.clamp (Fin 0) = Fin 0.
Proof. apply clamp_id. lra. Qed.

Lemma clamp_one : Reference.clamp (Fin 1) = Fin 1.
Proof. apply clamp_id. lra. Qed.

(** ** An angle that overflows *)

Lemma mul_nan_r (x : num) : (x * NaN)%float = NaN.
Proof. destruct x; reflexivity. Qed.

Lemma add_nan_r (x : num) : (x + NaN)%float = NaN.
Proof. destruct x; reflexivity. Qed.

(** When the cosine and the sine of the angle are nan, so are the three
    channels before and after clipping. *)
Lemma channels_of_nan_trig (start rot gamma hue : num) (k : nat) :
  Float.cos (Reference.angle start rot nlev k) = NaN ->
  Float.sin (Reference.angle start rot nlev k) = NaN ->
  Reference.clamp (Reference.red start rot gamma hue nlev k) = NaN
  /\ Reference.clamp (Reference.green start rot gamma hue nlev k) = NaN
  /\ Reference.clamp (Reference.blue start rot gamma hue nlev k) = NaN.
Proof.
  intros Hc Hsn.
  unfold Reference.red, Reference.green, Reference.blue.
  rewrite Hc, Hsn. unfold Float.sub.
  cbn [Float.mul Float.add Float.opp].
  rewrite mul_nan_r, add_nan_r. repeat split.
Qed.

Lemma pow2_1023 :
  2 ^ 1023 = IZR (Z.pow 2 1023) /\ 0 < 2 ^ 1023 /\ 2 ^ 1023 <= max_float
  /\ overflow_threshold < 4 * 2 ^ 1023.
Proof.
  assert (H : 2 ^ 1023 = IZR (Z.pow 2 1023)) by (now rewrite pow_IZR).
  rewrite H. unfold max_float, overflow_threshold.
  repeat split.
  - apply IZR_lt. reflexivity.
  - apply IZR_le. vm_compute. discriminate.
  - rewrite <- mult_IZR. apply IZR_lt. reflexivity.
Qed.

(** With [rot = 2^1023], a finite double, the angle of the last position
    overflows: [rot*fract] and the sum are in range, the product with
    [2 pi] is not. *)
Lemma angle_overflows_at_the_end (s : R) :
  0 <= s <= 3 ->
  Reference.angle (Fin s) (Fin (2 ^ 1023)) nlev (nlev - 1) = PInf.
Proof.
  intro Hs. destruct pow2_1023 as [_ [Hpos [Hmax Hbig]]].
  pose proof max_float_below_threshold as Hlt.
  assert (Hgap : max_float + 4 < overflow_threshold)
    by (unfold max_float, overflow_threshold;
        rewrite <- plus_IZR; apply IZR_lt; reflexivity).
  set (M := 2 ^ 1023) in *.
  unfold Reference.angle. rewrite t_last.
  rewrite div_fin by (try lra; in_range).
  rewrite add_fin by in_range.
  rewrite mul_fin by lra.
  rewrite add_fin by lra.
  cbn [Float.mul]. apply fit_overflow.
  pose proof PI2_1 as Hpi.
  assert (H4 : 4 <= 2 * PI) by lra.
  assert (HM : M <= s / 3 + 1 + M * 1) by lra.
  assert (Hprod : 4 * M <= 2 * PI * (s / 3 + 1 + M * 1)).
  { apply Rmult_le_compat; lra. }
  lra.
Qed.

(** * The claims *)

(** ** C1: channel values lie in the unit interval *)

Lemma f_first_negative (g : R) : g < 0 -> Reference.f (Fin g) nlev 0 = PInf.
Proof.
  intro Hg. unfold Reference.f. rewrite t_first.
  unfold Float.pow, Float.pow_fin.
  destruct (Req_dec_T g 0); [lra|].
  destruct (Rlt_dec 0 0); [lra|].
  destruct (Req_dec_T 0 0); [|lra].
  destruct (Rlt_dec 0 g); [lra|reflexivity].
Qed.

Lemma amp_first_negative (g h : R) :
  g < 0 -> 0 < h -> Reference.amp (Fin g) (Fin h) nlev 0 = NInf.
Proof.
  intros Hg Hh. unfold Reference.amp. rewrite (f_first_negative g Hg).
  unfold Float.sub, Float.opp, Float.add, Float.mul, Float.scale_inf.
  destruct (Req_dec_T h 0); [lra|].
  destruct (Rlt_dec 0 h); [|lra].
  unfold Float.inf_signed, Float.div.
  destruct (Rlt_dec 2 0); [lra|reflexivity].
Qed.

Lemma cos_angle_first (r : R) :
  - 1e300 <= r <= 1e300 ->
  Float.cos (Reference.angle (Fin 0) (Fin r) nlev 0) = Fin 1.
Proof.
  intro Hr. rewrite angle_value by (try lra; unfold nlev; lia).
  unfold Float.cos. f_equal.
  replace (2 * PI * (0 / 3 + 1 + r * (INR 0 / 255))) with (2 * PI)
    by (simpl; field).
  apply cos_2PI.
Qed.

Lemma blue_first_negative (r g h : R) :
  - 1e300 <= r <= 1e300 -> g < 0 -> 0 < h ->
  Reference.blue (Fin 0) (Fin r) (Fin g) (Fin h) nlev 0 = NaN.
Proof.
  intros Hr Hg Hh. unfold Reference.blue.
  rewrite (amp_first_negative g h Hg Hh), (f_first_negative g Hg).
  rewrite (cos_angle_first r Hr).
  rewrite mul_fin by in_range.
  cbn [Float.mul]. unfold Float.scale_inf.
  destruct (Req_dec_T (1.97294 * 1) 0); [lra|].
  destruct (Rlt_dec 0 (1.97294 * 1)); [reflexivity|lra].
Qed.

(** The sample at the last index of an unreversed map whose angle
    overflows there. *)
Lemma last_sample_of_overflowing_angle (s : R) (gamma hue : num) :
  0 <= s <= 3 ->
  exists smp,
    sample_at (cmap (Fin s) (Fin (2 ^ 1023)) gamma hue false) (nlev - 1)
    = Some smp
    /\ r_of smp = NaN /\ g_of smp = NaN /\ b_of smp = NaN.
Proof.
  intro Hs. eexists. split; [apply sample_at_cmap; unfold nlev; lia|].
  cbn [r_of g_of b_of source_index].
  apply channels_of_nan_trig;
    now rewrite (angle_overflows_at_the_end s Hs).
Qed.

(** C1, as stated, fails in two ways.  With [gamma = -1] (and
    [start = 0], the other parameters at their defaults) the fraction
    [0 ** gamma] of the first sample is infinite, its blue value is
    [inf - inf = nan], and the clipping comparisons are both false on nan.
    With [rot = 2^1023], a finite double (the other parameters at their
    defaults), the angle of the last position overflows to +inf, its
    cosine and sine are nan, and the three channels of the last sample
    are nan. *)
Lemma c1_negative_gamma_or_overflow_gives_nan :
  (exists smp,
      sample_at (cmap (Fin 0) (Fin (- 1.5)) (Fin (- 1)) (Fin 1.2) false) 0
      = Some smp
      /\ b_of smp = NaN
      /\ ~ in_unit (b_of smp))
  /\ (exists smp,
         sample_at (cmap (Fin 0.5) (Fin (2 ^ 1023)) (Fin 1) (Fin 1.2) false)
                   255
         = Some smp
         /\ r_of smp = NaN /\ g_of smp = NaN /\ b_of smp = NaN
         /\ ~ in_unit (r_of smp)).
Proof.
  split.
  - eexists. split.
    + apply sample_at_cmap. unfold nlev. lia.
    + cbn [b_of source_index].
      rewrite blue_first_negative by lra.
      split; [reflexivity|apply not_in_unit_nan].
  - destruct (last_sample_of_overflowing_angle 0.5 (Fin 1) (Fin 1.2))
      as [smp [Hs [Hr [Hg Hb]]]]; [lra|].
    exists smp. repeat split; try assumption.
    rewrite Hr. apply not_in_unit_nan.
Qed.

(** C1 (amended): for every configuration with real [gamma >= 0],
    [start] and [rot] of magnitude at most [1e300], [hue] any finite
    double and any [reverse], and every sample index [k] below the sample
    count, the sample exists and each of its red, green and blue values
    is the unclipped array entry clamped on its own: one when the entry
    is above one, zero when it is below zero, the entry itself otherwise;
    so each lies in [0,1]. *)
Theorem c1_channels_in_unit_interval
  (s r g h : R) (reverse : bool) (k : nat) :
  0 <= g ->
  - 1e300 <= s <= 1e300 -> - 1e300 <= r <= 1e300 ->
  - max_float <= h <= max_float ->
  (k < nlev)%nat ->
  exists smp,
    sample_at (cmap (Fin s) (Fin r) (Fin g) (Fin h) reverse) k = Some smp
    /\ clamped_from
         (Np.item (red_raw (Fin s) (Fin r) (Fin g) (Fin h))
                  (source_index reverse k))
         (r_of smp)
    /\ clamped_from
         (Np.item (grn_raw (Fin s) (Fin r) (Fin g) (Fin h))
                  (source_index reverse k))
         (g_of smp)
    /\ clamped_from
         (Np.item (blu_raw (Fin s) (Fin r) (Fin g) (Fin h))
                  (source_index reverse k))
         (b_of smp)
    /\ in_unit (r_of smp) /\ in_unit (g_of smp) /\ in_unit (b_of smp).
Proof.
  intros Hg Hs Hr Hh Hk. eexists. split; [apply sample_at_cmap; exact Hk|].
  pose proof (source_index_lt reverse k Hk) as Hsrc.
  destruct (f_unit g (source_index reverse k) Hg Hsrc) as [v [Hf Hv]].
  cbn [r_of g_of b_of].
  rewrite item_red_raw, item_grn_raw, item_blu_raw by exact Hsrc.
  rewrite (red_explicit s r g h v _ Hs Hr Hh Hsrc Hv Hf),
    (green_explicit s r g h v _ Hs Hr Hh Hsrc Hv Hf),
    (blue_explicit s r g h v _ Hs Hr Hh Hsrc Hv Hf).
  repeat split; try apply clamp_fin_clamped; apply clamp_fin_unit.
Qed.

Lemma c1_channels_in_unit_interval_witness :
  exists smp,
    sample_at (cmap (Fin 0.5) (Fin (- 1.5)) (Fin 1) (Fin 1.2) true) 7
    = Some smp
    /\ clamped_from
         (Np.item (red_raw (Fin 0.5) (Fin (- 1.5)) (Fin 1) (Fin 1.2))
                  (source_index true 7))
         (r_of smp)
    /\ clamped_from
         (Np.item (grn_raw (Fin 0.5) (Fin (- 1.5)) (Fin 1) (Fin 1.2))
                  (source_index true 7))
         (g_of smp)
    /\ clamped_from
         (Np.item (blu_raw (Fin 0.5) (Fin (- 1.5)) (Fin 1) (Fin 1.2))
                  (source_index true 7))
         (b_of smp)
    /\ in_unit (r_of smp) /\ in_unit (g_of smp) /\ in_unit (b_of smp).
Proof.
  apply (c1_channels_in_unit_interval 0.5 (- 1.5) 1 1.2 true 7);
    try lra; try in_range.
  unfold nlev; lia.
Defined.

(** ** C2: the arrays before clipping follow the reference formulas *)

(** C2: for every configuration and every index [k] below the sample
    count, entry [k] of the red, green and blue arrays computed by [cmap]
    before clipping equals the per-sample reference formula at [k]:
    [t = k/(N-1)], the angle taken from the unwarped [t], [f = t^gamma],
    [amp = hue f (1-f)/2] and the three channel equations with the
    coefficients of the specification. *)
Theorem c2_raw_channels_match_reference
  (start rot gamma hue : num) (k : nat) :
  (k < nlev)%nat ->
  Np.item (red_raw start rot gamma hue) k
  = Reference.red start rot gamma hue nlev k
  /\ Np.item (grn_raw start rot gamma hue) k
     = Reference.green start rot gamma hue nlev k
  /\ Np.item (blu_raw start rot gamma hue) k
     = Reference.blue start rot gamma hue nlev k.
Proof.
  intro Hk. split; [|split].
  - now apply item_red_raw.
  - now apply item_grn_raw.
  - now apply item_blu_raw.
Qed.

Lemma c2_raw_channels_match_reference_witness :
  (3 < nlev)%nat /\
  Np.item (red_raw (Fin 0.5) (Fin (- 1.5)) (Fin 1) (Fin 1.2)) 3
  = Reference.red (Fin 0.5) (Fin (- 1.5)) (Fin 1) (Fin 1.2) nlev 3
  /\ Np.item (grn_raw (Fin 0.5) (Fin (- 1.5)) (Fin 1) (Fin 1.2)) 3
     = Reference.green (Fin 0.5) (Fin (- 1.5)) (Fin 1) (Fin 1.2) nlev 3
  /\ Np.item (blu_raw (Fin 0.5) (Fin (- 1.5)) (Fin 1) (Fin 1.2)) 3
     = Reference.blue (Fin 0.5) (Fin (- 1.5)) (Fin 1) (Fin 1.2) nlev 3.
Proof.
  split; [unfold nlev; lia|].
  apply (c2_raw_channels_match_reference
           (Fin 0.5) (Fin (- 1.5)) (Fin 1) (Fin 1.2) 3).
  unfold nlev; lia.
Defined.

(** ** C3: the coordinates of the table *)

Lemma t_of_sample start rot gamma hue reverse k :
  (k < nlev)%nat ->
  exists smp,
    sample_at (cmap start rot gamma hue reverse) k = Some smp
    /\ t_of smp = Fin (INR k / 255).
Proof.
  intro Hk. eexists. split; [apply sample_at_cmap; exact Hk|].
  cbn [t_of]. now apply t_value.
Qed.

(** C3: for every configuration, sample [0] has coordinate [0.0], the
    last sample (index [N-1]) has coordinate [1.0], sample [k] has
    coordinate [k/(N-1)], the coordinates strictly increase with the
    index, and consecutive coordinates are a constant [1/(N-1)] apart. *)
Theorem c3_t_coordinates
  (start rot gamma hue : num) (reverse : bool) :
  let m := cmap start rot gamma hue reverse in
  (exists s0, sample_at m 0 = Some s0 /\ t_of s0 = Fin 0)
  /\ (exists s1, sample_at m (nlev - 1) = Some s1 /\ t_of s1 = Fin 1)
  /\ (forall k, (k < nlev)%nat ->
        exists sk, sample_at m k = Some sk
                   /\ t_of sk = Fin (INR k / INR (nlev - 1)))
  /\ (forall i j, (i < j < nlev)%nat ->
        exists si sj, sample_at m i = Some si /\ sample_at m j = Some sj
                      /\ Float.lt (t_of si) (t_of sj) = true)
  /\ (forall k, (S k < nlev)%nat ->
        exists sk sk', sample_at m k = Some sk
                       /\ sample_at m (S k) = Some sk'
                       /\ (t_of sk' - t_of sk)%float
                          = Fin (1 / INR (nlev - 1))).
Proof.
  intro m. subst m. repeat split.
  - eexists. split; [apply sample_at_cmap; unfold nlev; lia|].
    cbn [t_of]. apply t_first.
  - eexists. split; [apply sample_at_cmap; unfold nlev; lia|].
    cbn [t_of]. apply t_last.
  - intros k Hk.
    destruct (t_of_sample start rot gamma hue reverse k Hk) as [sk [Hs Ht]].
    exists sk. split; [exact Hs|]. now rewrite INR_nlev_minus_one.
  - intros i j [Hij Hj].
    destruct (t_of_sample start rot gamma hue reverse i) as [si [Hsi Hti]];
      [lia|].
    destruct (t_of_sample start rot gamma hue reverse j Hj) as [sj [Hsj Htj]].
    exists si, sj. repeat split; try assumption.
    rewrite Hti, Htj. unfold Float.lt, Float.gt.
    apply lt_INR in Hij.
    destruct (Rlt_dec (INR i / 255) (INR j / 255)) as [H|H];
      [reflexivity|exfalso; apply H; lra].
  - intros k Hk.
    destruct (t_of_sample start rot gamma hue reverse k) as [sk [Hsk Htk]];
      [lia|].
    destruct (t_of_sample start rot gamma hue reverse (S k) Hk)
      as [sk' [Hsk' Htk']].
    exists sk, sk'. repeat split; try assumption.
    pose proof (INR_lt_nlev (S k) Hk) as Hb. rewrite S_INR in Hb.
    rewrite Htk, Htk', INR_nlev_minus_one, S_INR.
    rewrite sub_fin by in_range. f_equal. lra.
Qed.

Lemma c3_t_coordinates_witness :
  exists s0 s1 s2,
    sample_at (cmap (Fin 0.5) (Fin (- 1.5)) (Fin 1) (Fin 1.2) false) 0
    = Some s0
    /\ sample_at (cmap (Fin 0.5) (Fin (- 1.5)) (Fin 1) (Fin 1.2) false) 1
       = Some s1
    /\ sample_at (cmap (Fin 0.5) (Fin (- 1.5)) (Fin 1) (Fin 1.2) false) 2
       = Some s2
    /\ t_of s0 = Fin 0
    /\ Float.lt (t_of s1) (t_of s2) = true.
Proof.
  destruct (c3_t_coordinates (Fin 0.5) (Fin (- 1.5)) (Fin 1) (Fin 1.2) false)
    as [[s0 [H0 Ht0]] [_ [_ [Hinc _]]]].
  destruct (Hinc 1%nat 2%nat) as [s1 [s2 [H1 [H2 Hlt]]]];
    [unfold nlev; lia|].
  exists s0, s1, s2. repeat split; assumption.
Defined.

(** ** C4: reversal *)

(** C4: for every configuration and every index [k] below the sample
    count, the table built with [reverse=True] carries at [k] exactly the
    red, green and blue values that the table built with [reverse=False]
    (same other parameters) carries at [N-1-k], and the coordinate at [k]
    is the same in the two tables. *)
Theorem c4_reversal_law
  (start rot gamma hue : num) (k : nat) :
  (k < nlev)%nat ->
  exists rv mirror fw,
    sample_at (cmap start rot gamma hue true) k = Some rv
    /\ sample_at (cmap start rot gamma hue false) (nlev - 1 - k) = Some mirror
    /\ sample_at (cmap start rot gamma hue false) k = Some fw
    /\ r_of rv = r_of mirror
    /\ g_of rv = g_of mirror
    /\ b_of rv = b_of mirror
    /\ t_of rv = t_of fw.
Proof.
  intro Hk. do 3 eexists.
  split; [apply sample_at_cmap; exact Hk|].
  split; [apply sample_at_cmap; lia|].
  split; [apply sample_at_cmap; exact Hk|].
  cbn [r_of g_of b_of t_of source_index]. repeat split.
Qed.

Lemma c4_reversal_law_witness :
  (10 < nlev)%nat /\
  exists rv mirror fw,
    sample_at (cmap (Fin 0.5) (Fin (- 1.5)) (Fin 1) (Fin 1.2) true) 10
    = Some rv
    /\ sample_at (cmap (Fin 0.5) (Fin (- 1.5)) (Fin 1) (Fin 1.2) false)
                 (nlev - 1 - 10) = Some mirror
    /\ sample_at (cmap (Fin 0.5) (Fin (- 1.5)) (Fin 1) (Fin 1.2) false) 10
       = Some fw
    /\ r_of rv = r_of mirror
    /\ g_of rv = g_of mirror
    /\ b_of rv = b_of mirror
    /\ t_of rv = t_of fw.
Proof.
  split; [unfold nlev; lia|].
  apply (c4_reversal_law (Fin 0.5) (Fin (- 1.5)) (Fin 1) (Fin 1.2) 10).
  unfold nlev; lia.
Defined.

(** ** C5 and C9: black and white endpoints *)

Lemma endpoints_black_white (s r g h : R) :
  - 1e300 <= s <= 1e300 -> - 1e300 <= r <= 1e300 ->
  - max_float <= h <= max_float ->
  0 < g ->
  sample_at (cmap (Fin s) (Fin r) (Fin g) (Fin h) false) 0
  = Some (Sample (Fin 0) (Fin 0) (Fin 0) (Fin 0))
  /\ sample_at (cmap (Fin s) (Fin r) (Fin g) (Fin h) false) (nlev - 1)
     = Some (Sample (Fin 1) (Fin 1) (Fin 1) (Fin 1)).
Proof.
  intros Hs Hr Hh Hg. split.
  - rewrite sample_at_cmap by (unfold nlev; lia). cbn [source_index].
    destruct (channels_where_amp_vanishes s r g h 0 0 Hs Hr Hh)
      as [Hred [Hgrn Hblu]];
      [unfold nlev; lia|lra|exact (f_first g Hg)|now left|].
    now rewrite Hred, Hgrn, Hblu, t_first, clamp_zero.
  - rewrite sample_at_cmap by (unfold nlev; lia). cbn [source_index].
    destruct (channels_where_amp_vanishes s r g h 1 (nlev - 1) Hs Hr Hh)
      as [Hred [Hgrn Hblu]];
      [unfold nlev; lia|lra|exact (f_last g)|now right|].
    now rewrite Hred, Hgrn, Hblu, t_last, clamp_one.
Qed.

(** C5: called with no arguments, so that every parameter takes its
    default ([start=0.5], [rot=-1.5], [gamma=1.0], [hue=1.2],
    [reverse=False]), [cmap] returns a table of 256 samples whose first
    sample has colour (0,0,0) and whose last sample, index 255, has colour
    (1,1,1). *)
Theorem c5_default_endpoints :
  exists m,
    cmap_call [] [] = Returned m
    /\ m = cmap (Fin 0.5) (Fin (- 1.5)) (Fin 1.0) (Fin 1.2) false
    /\ size m = 256%nat
    /\ sample_at m 0 = Some (Sample (Fin 0) (Fin 0) (Fin 0) (Fin 0))
    /\ sample_at m 255 = Some (Sample (Fin 1) (Fin 1) (Fin 1) (Fin 1)).
Proof.
  eexists. split; [reflexivity|]. split; [reflexivity|].
  split; [apply size_cmap|].
  apply (endpoints_black_white 0.5 (- 1.5) 1.0 1.2); try lra; in_range.
Qed.

(** C9, as stated, fails: [rot] is not unrestricted.  With
    [rot = 2^1023], a finite double, [gamma = 1] and the other
    parameters at their defaults, the angle of the last position
    overflows to +inf; its cosine and sine are nan, [0.0 * nan] is nan,
    and the last sample's colour is (nan, nan, nan), not (1,1,1). *)
Lemma c9_overflowing_angle_spoils_the_last_sample :
  exists smp,
    sample_at (cmap (Fin 0.5) (Fin (2 ^ 1023)) (Fin 1) (Fin 1.2) false)
              (nlev - 1)
    = Some smp
    /\ r_of smp = NaN /\ g_of smp = NaN /\ b_of smp = NaN
    /\ r_of smp <> Fin 1.
Proof.
  destruct (last_sample_of_overflowing_angle 0.5 (Fin 1) (Fin 1.2))
    as [smp [Hs [Hr [Hg Hb]]]]; [lra|].
  exists smp. repeat split; try assumption.
  rewrite Hr. discriminate.
Qed.

(** C9 (amended): for every configuration with real [gamma > 0],
    [reverse=False], [start] and [rot] of magnitude at most [1e300] and
    [hue] any finite double, the first sample's colour is exactly (0,0,0)
    and the last sample's colour is exactly (1,1,1). *)
Theorem c9_endpoints_any_configuration (s r g h : R) :
  0 < g ->
  - 1e300 <= s <= 1e300 -> - 1e300 <= r <= 1e300 ->
  - max_float <= h <= max_float ->
  (exists s0,
      sample_at (cmap (Fin s) (Fin r) (Fin g) (Fin h) false) 0 = Some s0
      /\ r_of s0 = Fin 0 /\ g_of s0 = Fin 0 /\ b_of s0 = Fin 0)
  /\ (exists s1,
         sample_at (cmap (Fin s) (Fin r) (Fin g) (Fin h) false) (nlev - 1)
         = Some s1
         /\ r_of s1 = Fin 1 /\ g_of s1 = Fin 1 /\ b_of s1 = Fin 1).
Proof.
  intros Hg Hs Hr Hh.
  destruct (endpoints_black_white s r g h Hs Hr Hh Hg) as [H0 H1].
  split; eexists; (split; [eassumption|]); repeat split.
Qed.

Lemma c9_endpoints_any_configuration_witness :
  (exists s0,
      sample_at (cmap (Fin 2) (Fin 3) (Fin 2.5) (Fin 4) false) 0 = Some s0
      /\ r_of s0 = Fin 0 /\ g_of s0 = Fin 0 /\ b_of s0 = Fin 0)
  /\ (exists s1,
         sample_at (cmap (Fin 2) (Fin 3) (Fin 2.5) (Fin 4) false) (nlev - 1)
         = Some s1
         /\ r_of s1 = Fin 1 /\ g_of s1 = Fin 1 /\ b_of s1 = Fin 1).
Proof.
  apply (c9_endpoints_any_configuration 2 3 2.5 4); try lra; in_range.
Defined.

(** ** C6: zero hue gives a grey ramp *)

Lemma grey_sample (s r g : R) (reverse : bool) (k : nat) :
  - 1e300 <= s <= 1e300 -> - 1e300 <= r <= 1e300 ->
  0 < g -> (k < nlev)%nat ->
  let src := Reference.f (Fin g) nlev (source_index reverse k) in
  sample_at (cmap (Fin s) (Fin r) (Fin g) (Fin 0) reverse) k
  = Some (Sample (Reference.t nlev k) src src src).
Proof.
  intros Hs Hr Hg Hk src. subst src.
  pose proof (source_index_lt reverse k Hk) as Hsrc.
  rewrite sample_at_cmap by exact Hk.
  destruct (f_unit g (source_index reverse k)) as [v [Hf Hv]];
    [lra|exact Hsrc|].
  assert (Hh : - max_float <= 0 <= max_float) by in_range.
  rewrite (red_explicit s r g 0 v _ Hs Hr Hh Hsrc Hv Hf),
    (green_explicit s r g 0 v _ Hs Hr Hh Hsrc Hv Hf),
    (blue_explicit s r g 0 v _ Hs Hr Hh Hsrc Hv Hf), Hf.
  match goal with
  | |- context [Fin (v + 0 * v * (1 - v) / 2 * ?c)] =>
      replace (v + 0 * v * (1 - v) / 2 * c) with v by lra
  end.
  match goal with
  | |- context [Fin (v + 0 * v * (1 - v) / 2 * ?c)] =>
      replace (v + 0 * v * (1 - v) / 2 * c) with v by lra
  end.
  match goal with
  | |- context [Fin (v + 0 * v * (1 - v) / 2 * ?c)] =>
      replace (v + 0 * v * (1 - v) / 2 * c) with v by lra
  end.
  now rewrite clamp_id by exact Hv.
Qed.

(** C6, as stated, fails in two ways.  With [hue = 0], [gamma = 1] and
    [reverse=True] the first sample has coordinate [t = 0] but carries
    the colour computed for the last position, so its red value is [1]
    while [t ** gamma] is [0].  And [rot] is not arbitrary: with
    [hue = 0], [gamma = 1] and [rot = 2^1023], a finite double, the angle
    of the last position overflows, its cosine is nan, the amplitude
    [0.0] times nan is nan, and the last sample's red value is nan while
    [t ** gamma] is [1]. *)
Lemma c6_reversed_or_overflowing_grey_is_not_t_pow_gamma :
  (exists smp,
      sample_at (cmap (Fin 0.5) (Fin (- 1.5)) (Fin 1) (Fin 0) true) 0
      = Some smp
      /\ r_of smp = Fin 1
      /\ (t_of smp ** Fin 1)%float = Fin 0
      /\ r_of smp <> (t_of smp ** Fin 1)%float)
  /\ (exists smp,
         sample_at (cmap (Fin 0.5) (Fin (2 ^ 1023)) (Fin 1) (Fin 0) false)
                   (nlev - 1)
         = Some smp
         /\ r_of smp = NaN
         /\ (t_of smp ** Fin 1)%float = Fin 1
         /\ r_of smp <> (t_of smp ** Fin 1)%float).
Proof.
  split.
  - eexists.
    split; [apply (grey_sample 0.5 (- 1.5) 1 true 0); try lra|].
    + unfold nlev. lia.
    + cbn [r_of t_of source_index]. rewrite Nat.sub_0_r.
      assert (Hr : Reference.f (Fin 1) nlev (nlev - 1) = Fin 1)
        by apply f_last.
      assert (Ht : (Reference.t nlev 0 ** Fin 1)%float = Fin 0)
        by (apply (f_first 1); lra).
      rewrite Hr, Ht. repeat split.
      intro H. injection H. lra.
  - destruct (last_sample_of_overflowing_angle 0.5 (Fin 1) (Fin 0))
      as [smp [Hs [Hr _]]]; [lra|].
    exists smp. split; [exact Hs|]. split; [exact Hr|].
    assert (Ht : t_of smp = Reference.t nlev (nlev - 1)).
    { rewrite sample_at_cmap in Hs by (unfold nlev; lia).
      now injection Hs as <-. }
    assert (Hp : (t_of smp ** Fin 1)%float = Fin 1)
      by (rewrite Ht; apply (f_last 1)).
    split; [exact Hp|]. rewrite Hr, Hp. discriminate.
Qed.

(** C6 (amended): with [hue = 0], real [gamma > 0], [start] and [rot]
    of magnitude at most [1e300] and any [reverse], every sample has
    equal red, green and blue values, and the common value is the
    coordinate of the position the colour was computed for, raised to
    [gamma].  With [reverse=False] that position is the sample's own, so
    [r = g = b = t ** gamma]; with [reverse=True] it is the coordinate
    of sample [N-1-k]. *)
Theorem c6_zero_hue_grey_ramp
  (s r g : R) (reverse : bool) (k : nat) :
  0 < g ->
  - 1e300 <= s <= 1e300 -> - 1e300 <= r <= 1e300 ->
  (k < nlev)%nat ->
  exists smp,
    sample_at (cmap (Fin s) (Fin r) (Fin g) (Fin 0) reverse) k = Some smp
    /\ r_of smp = g_of smp
    /\ g_of smp = b_of smp
    /\ b_of smp
       = (Reference.t nlev (source_index reverse k) ** Fin g)%float
    /\ (reverse = false -> r_of smp = (t_of smp ** Fin g)%float).
Proof.
  intros Hg Hs Hr Hk. eexists. split; [apply grey_sample; assumption|].
  cbn [r_of g_of b_of t_of]. repeat split.
  intros ->. reflexivity.
Qed.

Lemma c6_zero_hue_grey_ramp_witness :
  exists smp,
    sample_at (cmap (Fin 0.5) (Fin (- 1.5)) (Fin 2) (Fin 0) false) 100
    = Some smp
    /\ r_of smp = g_of smp
    /\ g_of smp = b_of smp
    /\ b_of smp
       = (Reference.t nlev (source_index false 100) ** Fin 2)%float
    /\ (false = false -> r_of smp = (t_of smp ** Fin 2)%float).
Proof.
  apply (c6_zero_hue_grey_ramp 0.5 (- 1.5) 2 false 100); try lra.
  unfold nlev; lia.
Defined.

(** ** C7 and C10: argument binding and the sample count *)

Lemma length_bind_positional sig pos sl :
  bind_positional sig pos = Some sl -> List.length sl = List.length sig.
Proof.
  revert pos sl. induction sig as [|[n d] sig IH]; intros pos sl H.
  - destruct pos; simpl in H; [|discriminate].
    injection H as <-. reflexivity.
  - destruct pos as [|v pos]; simpl in H.
    + destruct (bind_positional sig []) as [sl'|] eqn:E; [|discriminate].
      injection H as <-. simpl. f_equal. now apply (IH []).
    + destruct (bind_positional sig pos) as [sl'|] eqn:E; [|discriminate].
      injection H as <-. simpl. f_equal. now apply (IH pos).
Qed.

Lemma length_bind_keyword sl key v sl' :
  bind_keyword sl key v = Some sl' -> List.length sl' = List.length sl.
Proof.
  revert sl'. induction sl as [|[n cur] rest IH]; intros sl' H; simpl in H.
  - discriminate.
  - destruct (String.eqb n key).
    + destruct cur; [discriminate|]. injection H as <-. reflexivity.
    + destruct (bind_keyword rest key v) as [r|] eqn:E; [|discriminate].
      injection H as <-. simpl. f_equal. now apply IH.
Qed.

Lemma length_bind_keywords kw sl sl' :
  bind_keywords sl kw = Some sl' -> List.length sl' = List.length sl.
Proof.
  revert sl sl'. induction kw as [|[key v] kw IH]; intros sl sl' H; simpl in H.
  - now injection H as <-.
  - destruct (bind_keyword sl key v) as [sl1|] eqn:E; [|discriminate].
    rewrite (IH _ _ H). now apply length_bind_keyword in E.
Qed.

Lemma length_fill_defaults sig sl :
  List.length sl = List.length sig ->
  List.length (fill_defaults sig sl) = List.length sig.
Proof.
  revert sl. induction sig as [|[n d] sig IH]; intros [|[m cur] sl] H;
    simpl in *; try discriminate; auto.
Qed.

Lemma length_bind_arguments pos kw args :
  bind_arguments pos kw = Some args -> List.length args = 5%nat.
Proof.
  unfold bind_arguments. intro H.
  destruct (bind_positional signature pos) as [sl|] eqn:Ep; [|discriminate].
  destruct (bind_keywords sl kw) as [sl'|] eqn:Ek; [|discriminate].
  assert (Hargs : args = fill_defaults signature sl')
    by (cbv [option_map] in H; congruence).
  rewrite Hargs, length_fill_defaults; [reflexivity|].
  rewrite (length_bind_keywords _ _ _ Ek).
  now apply length_bind_positional in Ep.
Qed.

Lemma bind_positional_too_many sig pos :
  (List.length sig < List.length pos)%nat -> bind_positional sig pos = None.
Proof.
  revert pos. induction sig as [|[n d] sig IH]; intros [|v pos] H;
    simpl in *; try lia; try reflexivity.
  rewrite IH by lia. reflexivity.
Qed.

Lemma names_bind_positional sig pos sl :
  bind_positional sig pos = Some sl -> map fst sl = map fst sig.
Proof.
  revert pos sl. induction sig as [|[n d] sig IH]; intros pos sl H.
  - destruct pos; simpl in H; [|discriminate]. now injection H as <-.
  - destruct pos as [|v pos]; simpl in H.
    + destruct (bind_positional sig []) as [sl'|] eqn:E; [|discriminate].
      injection H as <-. simpl. f_equal. now apply (IH []).
    + destruct (bind_positional sig pos) as [sl'|] eqn:E; [|discriminate].
      injection H as <-. simpl. f_equal. now apply (IH pos).
Qed.

Lemma names_bind_keyword sl key v sl' :
  bind_keyword sl key v = Some sl' ->
  map fst sl' = map fst sl /\ In key (map fst sl).
Proof.
  revert sl'. induction sl as [|[n cur] rest IH]; intros sl' H; simpl in H.
  - discriminate.
  - destruct (String.eqb n key) eqn:En.
    + apply String.eqb_eq in En. destruct cur; [discriminate|].
      injection H as <-. simpl. split; [reflexivity|now left].
    + destruct (bind_keyword rest key v) as [r|] eqn:E; [|discriminate].
      injection H as <-. destruct (IH r eq_refl) as [Hn Hin].
      simpl. split; [now f_equal|now right].
Qed.

Lemma names_bind_keywords kw sl sl' key v :
  bind_keywords sl kw = Some sl' -> In (key, v) kw -> In key (map fst sl).
Proof.
  revert sl. induction kw as [|[key0 v0] kw IH]; intros sl H Hin.
  - contradiction.
  - simpl in H.
    destruct (bind_keyword sl key0 v0) as [sl1|] eqn:E; [|discriminate].
    destruct (names_bind_keyword _ _ _ _ E) as [Hn Hk].
    destruct Hin as [Heq|Hin].
    + injection Heq as <- <-. exact Hk.
    + rewrite <- Hn. now apply (IH sl1).
Qed.

Lemma length_channels start rot gamma hue reverse :
  let m := cmap start rot gamma hue reverse in
  List.length (channel "red" m) = nlev
  /\ List.length (channel "green" m) = nlev
  /\ List.length (channel "blue" m) = nlev.
Proof.
  intro m. subst m. rewrite cmap_tables. unfold channel. cbn [segmentdata].
  change (getitem _ "red") with
    (map (row (red_final start rot gamma hue reverse)) (seq 0 nlev)).
  change (getitem _ "green") with
    (map (row (grn_final start rot gamma hue reverse)) (seq 0 nlev)).
  change (getitem _ "blue") with
    (map (row (blu_final start rot gamma hue reverse)) (seq 0 nlev)).
  now rewrite !length_map, !length_seq.
Qed.

Lemma machine_number_converts (v : pyval) :
  machine_number v -> exists x, to_float v = Some x.
Proof.
  destruct v as [x|z|b]; intro H; cbn [to_float]; try (now eexists).
  cbn [machine_number] in H.
  assert (Hz : - 9223372036854775808 <= IZR z <= 9223372036854775808).
  { change (2 ^ 63)%Z with 9223372036854775808%Z in H.
    split; apply IZR_le; lia. }
  rewrite fit_fin by in_range. now eexists.
Qed.

(** The outcomes of a call: [TypeError] when the arguments do not bind,
    [OverflowError] when they bind and one of the four numbers does not
    convert, and otherwise the colour map of the bound values. *)
Lemma cmap_call_cases pos kw :
  (bind_arguments pos kw = None /\ cmap_call pos kw = Raised "TypeError")
  \/ (exists a b c d e,
         bind_arguments pos kw = Some [a; b; c; d; e]
         /\ ((cmap_call pos kw = Raised "OverflowError"
              /\ (to_float a = None \/ to_float b = None
                  \/ to_float c = None \/ to_float d = None))
             \/ (exists s r g h,
                    to_float a = Some s /\ to_float b = Some r
                    /\ to_float c = Some g /\ to_float d = Some h
                    /\ cmap_call pos kw
                       = Returned (cmap s r g h (eq_True e))))).
Proof.
  unfold cmap_call.
  destruct (bind_arguments pos kw) as [args|] eqn:E; [|now left].
  pose proof (length_bind_arguments _ _ _ E) as Hlen.
  destruct args as [|a [|b [|c [|d [|e [|x args]]]]]]; try discriminate Hlen.
  right. exists a, b, c, d, e. split; [reflexivity|].
  destruct (to_float a) as [s|]; [|left; split; [reflexivity|auto]].
  destruct (to_float b) as [r|]; [|left; split; [reflexivity|auto]].
  destruct (to_float c) as [g|]; [|left; split; [reflexivity|auto]].
  destruct (to_float d) as [h|]; [|left; split; [reflexivity|auto 6]].
  right. now exists s, r, g, h.
Qed.

(** A keyword that is not a parameter name makes the binding fail. *)
Lemma unknown_keyword_does_not_bind pos kw key v :
  In (key, v) kw ->
  ~ In key ["start"; "rot"; "gamma"; "hue"; "reverse"]%string ->
  bind_arguments pos kw = None.
Proof.
  intros Hin Hnot. unfold bind_arguments.
  destruct (bind_positional signature pos) as [sl|] eqn:Ep; [|reflexivity].
  destruct (bind_keywords sl kw) as [sl'|] eqn:Ek; [|reflexivity].
  exfalso. apply Hnot.
  pose proof (names_bind_keywords _ _ _ _ _ Ek Hin) as Hk.
  now rewrite (names_bind_positional _ _ _ Ep) in Hk.
Qed.

Lemma call_that_does_not_bind pos kw :
  bind_arguments pos kw = None -> cmap_call pos kw = Raised "TypeError".
Proof. intro H. unfold cmap_call. now rewrite H. Qed.

(** C7, as stated, fails: [cmap] has no [samples] parameter.  Passing
    [samples=0], [samples=1] or [samples=2] by keyword, or a sixth
    positional argument, raises [TypeError]; no failure named
    [InvalidSampleCount] is raised, and a sample count above one does not
    make the call succeed. *)
Lemma c7_samples_argument_is_a_type_error :
  cmap_call [] [("samples"%string, VInt 0)] = Raised "TypeError"
  /\ cmap_call [] [("samples"%string, VInt 1)] = Raised "TypeError"
  /\ cmap_call [] [("samples"%string, VInt 2)] = Raised "TypeError"
  /\ cmap_call [VFloat (Fin 0.5); VFloat (Fin (- 1.5)); VFloat (Fin 1.0);
                VFloat (Fin 1.2); VBool false; VInt 0] []
     = Raised "TypeError"
  /\ cmap_call [] [("samples"%string, VInt 0)] <> Raised "InvalidSampleCount".
Proof.
  repeat split; try reflexivity. discriminate.
Qed.

(** C7 (amended): [cmap] takes no sample count and never raises
    [InvalidSampleCount].  A call that passes [samples], whatever its
    value and whatever the other arguments, raises [TypeError].  An
    integer [start] too large for a double raises [OverflowError].  Every
    call whose arguments bind to the five parameters and are floats,
    bools or integers of the 64-bit range returns a colour map, which has
    256 samples. *)
Theorem c7_calls_that_bind_return_a_palette
  (pos : list pyval) (kw : list (string * pyval)) :
  cmap_call pos kw <> Raised "InvalidSampleCount"
  /\ ((exists v, In ("samples"%string, v) kw) ->
      cmap_call pos kw = Raised "TypeError")
  /\ (forall z, overflow_threshold <= IZR z ->
        cmap_call [VInt z] [] = Raised "OverflowError")
  /\ (forall args,
        bind_arguments pos kw = Some args -> Forall machine_number args ->
        exists m, cmap_call pos kw = Returned m /\ size m = 256%nat).
Proof.
  split; [|split; [|split]].
  - destruct (cmap_call_cases pos kw)
      as [[_ Hc]|[a [b [c [d [e [_ [[Hc _]|[s [r [g [h H]]]]]]]]]]]].
    + rewrite Hc. discriminate.
    + rewrite Hc. discriminate.
    + destruct H as [_ [_ [_ [_ Hc]]]]. rewrite Hc. discriminate.
  - intros [v Hin]. apply call_that_does_not_bind.
    apply (unknown_keyword_does_not_bind pos kw "samples" v Hin).
    intros [H|[H|[H|[H|[H|[]]]]]]; discriminate H.
  - intros z Hz. unfold cmap_call.
    cbn [bind_arguments bind_positional signature option_map bind_keywords
         fill_defaults to_float].
    now rewrite (fit_overflow _ Hz).
  - intros args Hb Hm.
    destruct (cmap_call_cases pos kw)
      as [[Hn _]|[a [b [c [d [e [Hb' Hcases]]]]]]];
      [rewrite Hn in Hb; discriminate|].
    rewrite Hb' in Hb. injection Hb as <-.
    inversion Hm as [|? ? Ha Hm1]; subst.
    inversion Hm1 as [|? ? Hb1 Hm2]; subst.
    inversion Hm2 as [|? ? Hc1 Hm3]; subst.
    inversion Hm3 as [|? ? Hd1 _]; subst.
    destruct (machine_number_converts a Ha) as [s Hs].
    destruct (machine_number_converts b Hb1) as [r Hr].
    destruct (machine_number_converts c Hc1) as [g Hg].
    destruct (machine_number_converts d Hd1) as [h Hh].
    unfold cmap_call. rewrite Hb', Hs, Hr, Hg, Hh.
    eexists. split; [reflexivity|apply size_cmap].
Qed.

Lemma c7_calls_that_bind_return_a_palette_witness :
  cmap_call [] [("rot"%string, VFloat (Fin 1)); ("samples"%string, VInt 64)]
  = Raised "TypeError"
  /\ exists m,
       cmap_call [VInt 0] [("rot"%string, VFloat (Fin (- 0.5)))] = Returned m
       /\ size m = 256%nat.
Proof.
  split.
  - destruct (c7_calls_that_bind_return_a_palette
                [] [("rot"%string, VFloat (Fin 1));
                    ("samples"%string, VInt 64)])
      as [_ [H _]].
    apply H. exists (VInt 64). right. now left.
  - destruct (c7_calls_that_bind_return_a_palette
                [VInt 0] [("rot"%string, VFloat (Fin (- 0.5)))])
      as [_ [_ [_ H]]].
    apply (H [VInt 0; VFloat (Fin (- 0.5)); VFloat (Fin 1.0);
              VFloat (Fin 1.2); VBool false]); [reflexivity|].
    repeat constructor; cbn [machine_number]; lia.
Defined.

(** C10: for every configuration the three tables of the returned colour
    map have exactly 256 entries each, and every call that returns gives
    a colour map of 256 samples: no argument changes the sample count. *)
Theorem c10_table_has_256_entries :
  (forall (start rot gamma hue : num) (reverse : bool),
      let m := cmap start rot gamma hue reverse in
      size m = 256%nat
      /\ List.length (channel "red" m) = 256%nat
      /\ List.length (channel "green" m) = 256%nat
      /\ List.length (channel "blue" m) = 256%nat)
  /\ (forall pos kw m, cmap_call pos kw = Returned m -> size m = 256%nat).
Proof.
  split.
  - intros start rot gamma hue reverse m.
    split; [apply size_cmap|apply length_channels].
  - intros pos kw m H.
    destruct (cmap_call_cases pos kw)
      as [[_ Hc]|[a [b [c [d [e [_ [[Hc _]|[s [r [g [h Hc]]]]]]]]]]]].
    + rewrite Hc in H. discriminate.
    + rewrite Hc in H. discriminate.
    + destruct Hc as [_ [_ [_ [_ Hc]]]]. rewrite Hc in H.
      injection H as <-. apply size_cmap.
Qed.

Lemma c10_table_has_256_entries_witness :
  size (cmap (Fin 0) (Fin 1) (Fin 1.0) (Fin 1.2) true) = 256%nat.
Proof.
  destruct c10_table_has_256_entries as [_ H].
  apply (H [VFloat (Fin 0); VFloat (Fin 1)] [("reverse"%string, VBool true)]).
  reflexivity.
Defined.
(** * Further properties of [cmap] *)

(** ** Clipping with non-finite values *)

Lemma clamp_cases (x : num) :
  (x = NaN /\ Reference.clamp x = NaN)
  \/ (x <> NaN /\ in_unit (Reference.clamp x)).
Proof.
  destruct x as [a| | |].
  - right. split; [discriminate|apply clamp_fin_unit].
  - right. split; [discriminate|]. exists 1. split; [reflexivity|lra].
  - right. split; [discriminate|]. exists 0. split; [reflexivity|lra].
  - left. split; reflexivity.
Qed.

Lemma clamp_nan_iff (x : num) : Reference.clamp x = NaN <-> x = NaN.
Proof.
  destruct (clamp_cases x) as [[Hx Hc]|[Hx [v [Hv _]]]].
  - split; intros _; assumption.
  - split; intro H; [rewrite H in Hv; discriminate|contradiction].
Qed.

Lemma clamp_unit_or_nan (x : num) :
  in_unit (Reference.clamp x) \/ Reference.clamp x = NaN.
Proof. destruct (clamp_cases x) as [[_ H]|[_ H]]; [now right|now left]. Qed.

(** X1: whatever floats are passed (infinities and nan included), every
    channel value of every sample is either a number of [0,1] or nan, and
    it is nan exactly when the value computed before clipping, at the
    position the sample takes its colour from, is nan: the clipping step
    neither creates nor removes nan. *)
Theorem x1_channel_in_unit_or_nan
  (start rot gamma hue : num) (reverse : bool) (k : nat) :
  (k < nlev)%nat ->
  exists smp,
    sample_at (cmap start rot gamma hue reverse) k = Some smp
    /\ (in_unit (r_of smp) \/ r_of smp = NaN)
    /\ (in_unit (g_of smp) \/ g_of smp = NaN)
    /\ (in_unit (b_of smp) \/ b_of smp = NaN)
    /\ (r_of smp = NaN
        <-> Np.item (red_raw start rot gamma hue) (source_index reverse k)
            = NaN)
    /\ (g_of smp = NaN
        <-> Np.item (grn_raw start rot gamma hue) (source_index reverse k)
            = NaN)
    /\ (b_of smp = NaN
        <-> Np.item (blu_raw start rot gamma hue) (source_index reverse k)
            = NaN).
Proof.
  intro Hk. pose proof (source_index_lt reverse k Hk) as Hs.
  eexists. split; [apply sample_at_cmap; exact Hk|].
  cbn [r_of g_of b_of].
  rewrite item_red_raw, item_grn_raw, item_blu_raw by exact Hs.
  repeat split; try apply clamp_unit_or_nan; apply clamp_nan_iff.
Qed.

Lemma x1_channel_in_unit_or_nan_witness :
  (0 < nlev)%nat /\
  exists smp,
    sample_at (cmap PInf (Fin 1) NaN NInf true) 0 = Some smp
    /\ (in_unit (r_of smp) \/ r_of smp = NaN)
    /\ (in_unit (g_of smp) \/ g_of smp = NaN)
    /\ (in_unit (b_of smp) \/ b_of smp = NaN)
    /\ (r_of smp = NaN
        <-> Np.item (red_raw PInf (Fin 1) NaN NInf) (source_index true 0)
            = NaN)
    /\ (g_of smp = NaN
        <-> Np.item (grn_raw PInf (Fin 1) NaN NInf) (source_index true 0)
            = NaN)
    /\ (b_of smp = NaN
        <-> Np.item (blu_raw PInf (Fin 1) NaN NInf) (source_index true 0)
            = NaN).
Proof.
  split; [unfold nlev; lia|].
  apply (x1_channel_in_unit_or_nan PInf (Fin 1) NaN NInf true 0).
  unfold nlev; lia.
Defined.

(** ** The segment tables *)

Lemma channel_entries start rot gamma hue reverse k :
  (k < nlev)%nat ->
  let m := cmap start rot gamma hue reverse in
  nth_error (channel "red" m) k
  = Some (row (red_final start rot gamma hue reverse) k)
  /\ nth_error (channel "green" m) k
     = Some (row (grn_final start rot gamma hue reverse) k)
  /\ nth_error (channel "blue" m) k
     = Some (row (blu_final start rot gamma hue reverse) k).
Proof.
  intros Hk m. subst m. rewrite cmap_tables. unfold channel.
  cbn [segmentdata].
  change (getitem _ "red") with
    (map (row (red_final start rot gamma hue reverse)) (seq 0 nlev)).
  change (getitem _ "green") with
    (map (row (grn_final start rot gamma hue reverse)) (seq 0 nlev)).
  change (getitem _ "blue") with
    (map (row (blu_final start rot gamma hue reverse)) (seq 0 nlev)).
  now rewrite !nth_error_rows by exact Hk.
Qed.

Lemma row_coordinate (v : Np.array) (k : nat) :
  (k < nlev)%nat ->
  row v k = (Fin (INR k / 255), Np.item v k, Np.item v k).
Proof.
  intro Hk. pose proof (INR_lt_nlev k Hk) as Hb.
  unfold row. rewrite nlev_minus_one, INR_nlev_minus_one.
  rewrite div_fin by (try lra; in_range). reflexivity.
Qed.

(** X2: for every configuration and every index [k] below 256, entry [k]
    of each of the three tables ['red'], ['green'] and ['blue'] has the
    form [(k/255, v, v)]: the three tables use the same coordinate at the
    same index, and the two colour fields of an entry are equal, so the
    piecewise-linear map they describe has no jump. *)
Theorem x2_tables_share_coordinates_and_are_continuous
  (start rot gamma hue : num) (reverse : bool) (k : nat) :
  (k < nlev)%nat ->
  let m := cmap start rot gamma hue reverse in
  exists r g b,
    nth_error (channel "red" m) k = Some (Fin (INR k / 255), r, r)
    /\ nth_error (channel "green" m) k = Some (Fin (INR k / 255), g, g)
    /\ nth_error (channel "blue" m) k = Some (Fin (INR k / 255), b, b).
Proof.
  intros Hk m.
  destruct (channel_entries start rot gamma hue reverse k Hk)
    as [Hr [Hg Hb]].
  subst m. rewrite Hr, Hg, Hb, !row_coordinate by exact Hk.
  do 3 eexists. repeat split.
Qed.

Lemma x2_tables_share_coordinates_and_are_continuous_witness :
  (5 < nlev)%nat /\
  exists r g b,
    nth_error
      (channel "red" (cmap (Fin 0.5) (Fin (- 1.5)) (Fin 1) (Fin 1.2) false))
      5 = Some (Fin (INR 5 / 255), r, r)
    /\ nth_error
         (channel "green"
                  (cmap (Fin 0.5) (Fin (- 1.5)) (Fin 1) (Fin 1.2) false))
         5 = Some (Fin (INR 5 / 255), g, g)
    /\ nth_error
         (channel "blue"
                  (cmap (Fin 0.5) (Fin (- 1.5)) (Fin 1) (Fin 1.2) false))
         5 = Some (Fin (INR 5 / 255), b, b).
Proof.
  split; [unfold nlev; lia|].
  apply (x2_tables_share_coordinates_and_are_continuous
           (Fin 0.5) (Fin (- 1.5)) (Fin 1) (Fin 1.2) false 5).
  unfold nlev; lia.
Defined.

(** ** Small hue: nothing is clipped *)

(** A value [v + h v (1-v)/2 T] stays in [0,1] when [v] is in [0,1],
    [|h| <= 1] and [|T| <= 2]. *)
Lemma helix_term_in_unit (v h T : R) :
  0 <= v <= 1 -> -1 <= h <= 1 -> -2 <= T <= 2 ->
  0 <= v + h * v * (1 - v) / 2 * T <= 1.
Proof.
  intros [Hv0 Hv1] [Hh0 Hh1] [HT0 HT1].
  assert (Hw : 0 <= v * (1 - v)) by nra.
  assert (HP : -2 <= h * T <= 2) by nra.
  replace (v + h * v * (1 - v) / 2 * T)
    with (v + v * (1 - v) * ((h * T) / 2)) by field.
  assert (Hq : -1 <= h * T / 2 <= 1) by lra.
  assert (Hlo : - (v * (1 - v)) <= v * (1 - v) * (h * T / 2)) by nra.
  assert (Hhi : v * (1 - v) * (h * T / 2) <= v * (1 - v)) by nra.
  split; nra.
Qed.

(** X3: for real [gamma] between 0 and 100, [start] and [rot] of
    magnitude at most [1e300] and a real [hue] with [-1 <= hue <= 1], the
    values computed before clipping already lie in [0,1], so the clipping
    step changes nothing: every channel of every sample equals the
    unclipped array entry at the position the sample takes its colour
    from.  (The upper bound on [gamma] keeps a non-zero fraction well
    above the subnormal doubles, whose coarse rounding is outside the
    model.) *)
Theorem x3_small_hue_is_never_clipped
  (s r g h : R) (reverse : bool) (k : nat) :
  0 <= g <= 100 ->
  - 1e300 <= s <= 1e300 -> - 1e300 <= r <= 1e300 ->
  -1 <= h <= 1 -> (k < nlev)%nat ->
  exists smp,
    sample_at (cmap (Fin s) (Fin r) (Fin g) (Fin h) reverse) k = Some smp
    /\ r_of smp
       = Np.item (red_raw (Fin s) (Fin r) (Fin g) (Fin h))
                 (source_index reverse k)
    /\ g_of smp
       = Np.item (grn_raw (Fin s) (Fin r) (Fin g) (Fin h))
                 (source_index reverse k)
    /\ b_of smp
       = Np.item (blu_raw (Fin s) (Fin r) (Fin g) (Fin h))
                 (source_index reverse k)
    /\ in_unit (r_of smp) /\ in_unit (g_of smp) /\ in_unit (b_of smp).
Proof.
  intros [Hg _] Hs Hr Hh Hk.
  pose proof (source_index_lt reverse k Hk) as Hsrc.
  eexists. split; [apply sample_at_cmap; exact Hk|].
  cbn [r_of g_of b_of].
  rewrite item_red_raw, item_grn_raw, item_blu_raw by exact Hsrc.
  destruct (f_unit g (source_index reverse k) Hg Hsrc) as [v [Hf Hv]].
  assert (Hh' : - max_float <= h <= max_float) by in_range.
  rewrite (red_explicit s r g h v _ Hs Hr Hh' Hsrc Hv Hf),
    (green_explicit s r g h v _ Hs Hr Hh' Hsrc Hv Hf),
    (blue_explicit s r g h v _ Hs Hr Hh' Hsrc Hv Hf).
  set (a := 2 * PI * (s / 3 + 1 + r * (INR (source_index reverse k) / 255))).
  pose proof (COS_bound a) as Hc. pose proof (SIN_bound a) as Hsn.
  assert (Hred : 0 <= v + h * v * (1 - v) / 2
                          * (- 0.14861 * cos a + 1.78277 * sin a) <= 1)
    by (apply helix_term_in_unit; lra).
  assert (Hgrn : 0 <= v + h * v * (1 - v) / 2
                          * (- 0.29227 * cos a - 0.90649 * sin a) <= 1)
    by (apply helix_term_in_unit; lra).
  assert (Hblu : 0 <= v + h * v * (1 - v) / 2 * (1.97294 * cos a) <= 1)
    by (apply helix_term_in_unit; lra).
  rewrite !clamp_id by assumption.
  repeat split; try reflexivity; eexists; (split; [reflexivity|assumption]).
Qed.

Lemma x3_small_hue_is_never_clipped_witness :
  exists smp,
    sample_at (cmap (Fin 0.5) (Fin (- 1.5)) (Fin 1) (Fin 0.8) false) 40
    = Some smp
    /\ r_of smp
       = Np.item (red_raw (Fin 0.5) (Fin (- 1.5)) (Fin 1) (Fin 0.8))
                 (source_index false 40)
    /\ g_of smp
       = Np.item (grn_raw (Fin 0.5) (Fin (- 1.5)) (Fin 1) (Fin 0.8))
                 (source_index false 40)
    /\ b_of smp
       = Np.item (blu_raw (Fin 0.5) (Fin (- 1.5)) (Fin 1) (Fin 0.8))
                 (source_index false 40)
    /\ in_unit (r_of smp) /\ in_unit (g_of smp) /\ in_unit (b_of smp).
Proof.
  apply (x3_small_hue_is_never_clipped 0.5 (- 1.5) 1 0.8 false 40);
    try lra.
  unfold nlev; lia.
Defined.

(** ** Zero gamma *)

Lemma f_gamma_zero (k : nat) :
  (k < nlev)%nat -> Reference.f (Fin 0) nlev k = Fin 1.
Proof.
  intro Hk. unfold Reference.f. rewrite t_value by exact Hk.
  unfold Float.pow, Float.pow_fin.
  destruct (Req_dec_T 0 0); [reflexivity|lra].
Qed.

(** X4: with [gamma = 0], [start] and [rot] of magnitude at most
    [1e300], [hue] any finite double and any [reverse], every sample is
    white: [fract**0] is one at every position, zero included, so the
    amplitude vanishes and all three channels are 1. *)
Theorem x4_zero_gamma_is_all_white
  (s r h : R) (reverse : bool) (k : nat) :
  - 1e300 <= s <= 1e300 -> - 1e300 <= r <= 1e300 ->
  - max_float <= h <= max_float ->
  (k < nlev)%nat ->
  sample_at (cmap (Fin s) (Fin r) (Fin 0) (Fin h) reverse) k
  = Some (Sample (Fin (INR k / 255)) (Fin 1) (Fin 1) (Fin 1)).
Proof.
  intros Hs Hr Hh Hk. pose proof (source_index_lt reverse k Hk) as Hsrc.
  rewrite sample_at_cmap by exact Hk.
  destruct (channels_where_amp_vanishes s r 0 h 1 (source_index reverse k)
              Hs Hr Hh Hsrc)
    as [Hred [Hgrn Hblu]]; [lra|exact (f_gamma_zero _ Hsrc)|now right|].
  now rewrite Hred, Hgrn, Hblu, clamp_one, t_value.
Qed.

Lemma x4_zero_gamma_is_all_white_witness :
  sample_at (cmap (Fin 0.5) (Fin (- 1.5)) (Fin 0) (Fin 1.2) false) 0
  = Some (Sample (Fin (INR 0 / 255)) (Fin 1) (Fin 1) (Fin 1)).
Proof.
  apply (x4_zero_gamma_is_all_white 0.5 (- 1.5) 1.2 false 0);
    try lra; try in_range.
  unfold nlev; lia.
Defined.

(** ** Blue-only maps *)

Lemma clamp_monotone (x y : R) :
  x <= y ->
  exists cx cy,
    Reference.clamp (Fin x) = Fin cx /\ Reference.clamp (Fin y) = Fin cy
    /\ cx <= cy.
Proof.
  intro Hxy. unfold Reference.clamp, Float.lt, Float.gt.
  destruct (Rlt_dec 1 x), (Rlt_dec 1 y), (Rlt_dec x 0), (Rlt_dec y 0);
    do 2 eexists; (split; [reflexivity|split; [reflexivity|lra]]).
Qed.

(** X6: with [start = 0] and [rot = 0], a [hue >= 0] that is a finite
    double and real [gamma >= 0], every sample satisfies
    [green <= red <= blue]: the map is the blue-only map the docstring
    announces for these settings. *)
Theorem x6_start0_rot0_is_blue_dominant
  (g h : R) (reverse : bool) (k : nat) :
  0 <= g -> 0 <= h -> h <= max_float -> (k < nlev)%nat ->
  exists smp rv gv bv,
    sample_at (cmap (Fin 0) (Fin 0) (Fin g) (Fin h) reverse) k = Some smp
    /\ r_of smp = Fin rv /\ g_of smp = Fin gv /\ b_of smp = Fin bv
    /\ gv <= rv <= bv.
Proof.
  intros Hg Hh Hmax Hk. pose proof (source_index_lt reverse k Hk) as Hsrc.
  destruct (f_unit g (source_index reverse k) Hg Hsrc) as [v [Hf Hv]].
  assert (Hs : - 1e300 <= 0 <= 1e300) by lra.
  assert (Hh' : - max_float <= h <= max_float) by in_range.
  set (a := 2 * PI * (0 / 3 + 1 + 0 * (INR (source_index reverse k) / 255))).
  assert (Ha : a = 2 * PI) by (unfold a; field).
  assert (Hw0 : 0 <= v * (1 - v)) by nra.
  assert (Hw1 : 0 <= h * (v * (1 - v))) by (apply Rmult_le_pos; assumption).
  assert (Hw : 0 <= h * v * (1 - v) / 2) by lra.
  pose proof (red_explicit 0 0 g h v _ Hs Hs Hh' Hsrc Hv Hf) as Hred.
  pose proof (green_explicit 0 0 g h v _ Hs Hs Hh' Hsrc Hv Hf) as Hgrn.
  pose proof (blue_explicit 0 0 g h v _ Hs Hs Hh' Hsrc Hv Hf) as Hblu.
  fold a in Hred, Hgrn, Hblu.
  set (A := h * v * (1 - v) / 2) in *.
  destruct (clamp_monotone
              (v + A * (- 0.29227 * cos a - 0.90649 * sin a))
              (v + A * (- 0.14861 * cos a + 1.78277 * sin a)))
    as [gv [rv [Hgv [Hrv Hgr]]]];
    [rewrite Ha, cos_2PI, sin_2PI; lra|].
  destruct (clamp_monotone
              (v + A * (- 0.14861 * cos a + 1.78277 * sin a))
              (v + A * (1.97294 * cos a)))
    as [rv' [bv [Hrv' [Hbv Hrb]]]];
    [rewrite Ha, cos_2PI, sin_2PI; lra|].
  rewrite Hrv in Hrv'. injection Hrv' as <-.
  eexists. exists rv, gv, bv.
  split; [apply sample_at_cmap; exact Hk|].
  cbn [r_of g_of b_of].
  rewrite Hred, Hgrn, Hblu, Hrv, Hgv, Hbv. repeat split; assumption.
Qed.

Lemma x6_start0_rot0_is_blue_dominant_witness :
  0 <= 1 /\ 0 <= 1.2 /\ (128 < nlev)%nat /\
  exists smp rv gv bv,
    sample_at (cmap (Fin 0) (Fin 0) (Fin 1) (Fin 1.2) false) 128 = Some smp
    /\ r_of smp = Fin rv /\ g_of smp = Fin gv /\ b_of smp = Fin bv
    /\ gv <= rv <= bv.
Proof.
  split; [lra|]. split; [lra|]. split; [unfold nlev; lia|].
  apply (x6_start0_rot0_is_blue_dominant 1 1.2 false 128);
    try lra; try in_range.
  unfold nlev; lia.
Defined.

(** ** Reversed endpoints *)

(** X7: with [reverse=True], real [gamma > 0], [start] and [rot] of
    magnitude at most [1e300] and [hue] any finite double, the table runs
    from white to black: sample 0 has coordinate 0 and colour (1,1,1),
    sample 255 has coordinate 1 and colour (0,0,0). *)
Theorem x7_reversed_map_runs_white_to_black (s r g h : R) :
  0 < g ->
  - 1e300 <= s <= 1e300 -> - 1e300 <= r <= 1e300 ->
  - max_float <= h <= max_float ->
  sample_at (cmap (Fin s) (Fin r) (Fin g) (Fin h) true) 0
  = Some (Sample (Fin 0) (Fin 1) (Fin 1) (Fin 1))
  /\ sample_at (cmap (Fin s) (Fin r) (Fin g) (Fin h) true) 255
     = Some (Sample (Fin 1) (Fin 0) (Fin 0) (Fin 0)).
Proof.
  intros Hg Hs Hr Hh. split.
  - rewrite sample_at_cmap by (unfold nlev; lia).
    cbn [source_index]. rewrite Nat.sub_0_r.
    destruct (channels_where_amp_vanishes s r g h 1 (nlev - 1) Hs Hr Hh)
      as [Hred [Hgrn Hblu]];
      [unfold nlev; lia|lra|exact (f_last g)|now right|].
    now rewrite Hred, Hgrn, Hblu, t_first, clamp_one.
  - change 255%nat with (nlev - 1)%nat.
    rewrite sample_at_cmap by (unfold nlev; lia).
    cbn [source_index]. rewrite Nat.sub_diag.
    destruct (channels_where_amp_vanishes s r g h 0 0 Hs Hr Hh)
      as [Hred [Hgrn Hblu]];
      [unfold nlev; lia|lra|exact (f_first g Hg)|now left|].
    now rewrite Hred, Hgrn, Hblu, t_last, clamp_zero.
Qed.

Lemma x7_reversed_map_runs_white_to_black_witness :
  sample_at (cmap (Fin 0.5) (Fin 1) (Fin 1) (Fin 1.2) true) 0
  = Some (Sample (Fin 0) (Fin 1) (Fin 1) (Fin 1))
  /\ sample_at (cmap (Fin 0.5) (Fin 1) (Fin 1) (Fin 1.2) true) 255
     = Some (Sample (Fin 1) (Fin 0) (Fin 0) (Fin 0)).
Proof.
  apply (x7_reversed_map_runs_white_to_black 0.5 1 1 1.2);
    try lra; in_range.
Defined.

(** ** A start that is not finite *)

Lemma two_pi_times_not_finite (x : num) :
  (forall v, x <> Fin v) ->
  Float.cos (Fin (2 * PI) * x) = NaN /\ Float.sin (Fin (2 * PI) * x) = NaN.
Proof.
  intro Hx. pose proof PI_RGT_0 as Hpi.
  destruct x as [v| | |]; [now contradiction (Hx v)| | |];
    cbn [Float.mul]; unfold Float.scale_inf;
    try (destruct (Req_dec_T (2 * PI) 0); [lra|];
         destruct (Rlt_dec 0 (2 * PI)); [|lra]);
    split; reflexivity.
Qed.

Lemma angle_of_bad_start (start rot : num) (k : nat) :
  (forall v, start <> Fin v) ->
  Float.cos (Reference.angle start rot nlev k) = NaN
  /\ Float.sin (Reference.angle start rot nlev k) = NaN.
Proof.
  intro Hs. unfold Reference.angle. apply two_pi_times_not_finite.
  intro v. unfold Float.div.
  destruct start as [x| | |]; [now contradiction (Hs x)| | |];
    try (destruct (Rlt_dec 3 0); [lra|]);
    destruct (rot * Reference.t nlev k)%float; discriminate.
Qed.

(** X8: nothing validates [start]: when it is not a finite number
    (+inf, -inf or nan) the angle is not finite at any position, its
    cosine and sine are nan, and every channel of every sample of the
    returned map is nan, whatever the other arguments are. *)
Theorem x8_non_finite_start_gives_nan_everywhere
  (start rot gamma hue : num) (reverse : bool) (k : nat) :
  (forall v, start <> Fin v) -> (k < nlev)%nat ->
  exists smp,
    sample_at (cmap start rot gamma hue reverse) k = Some smp
    /\ r_of smp = NaN /\ g_of smp = NaN /\ b_of smp = NaN.
Proof.
  intros Hs Hk. eexists. split; [apply sample_at_cmap; exact Hk|].
  cbn [r_of g_of b_of].
  destruct (angle_of_bad_start start rot (source_index reverse k) Hs)
    as [Hc Hsn].
  unfold Reference.red, Reference.green, Reference.blue.
  rewrite Hc, Hsn. unfold Float.sub.
  cbn [Float.mul Float.add Float.opp].
  rewrite mul_nan_r, add_nan_r. repeat split.
Qed.

Lemma x8_non_finite_start_gives_nan_everywhere_witness :
  (forall v, PInf <> Fin v) /\ (9 < nlev)%nat /\
  exists smp,
    sample_at (cmap PInf (Fin (- 1.5)) (Fin 1) (Fin 1.2) false) 9 = Some smp
    /\ r_of smp = NaN /\ g_of smp = NaN /\ b_of smp = NaN.
Proof.
  split; [discriminate|]. split; [unfold nlev; lia|].
  apply (x8_non_finite_start_gives_nan_everywhere
           PInf (Fin (- 1.5)) (Fin 1) (Fin 1.2) false 9);
    [discriminate|unfold nlev; lia].
Defined.

(** ** Binding the arguments of a call *)

(** X11: a call with more than five positional arguments, or with a
    keyword argument whose name is not one of [start], [rot], [gamma],
    [hue], [reverse], raises [TypeError], whatever the other arguments
    are. *)
Theorem x11_surplus_or_unknown_argument_is_a_type_error
  (pos : list pyval) (kw : list (string * pyval)) :
  (5 < List.length pos)%nat
  \/ (exists key v,
         In (key, v) kw
         /\ ~ In key ["start"; "rot"; "gamma"; "hue"; "reverse"]%string) ->
  cmap_call pos kw = Raised "TypeError".
Proof.
  intro H. apply call_that_does_not_bind.
  destruct H as [Hlen|[key [v [Hin Hnot]]]].
  - unfold bind_arguments.
    now rewrite bind_positional_too_many by exact Hlen.
  - exact (unknown_keyword_does_not_bind pos kw key v Hin Hnot).
Qed.

Lemma x11_surplus_or_unknown_argument_is_a_type_error_witness :
  cmap_call [VFloat (Fin 0)] [("nlev"%string, VInt 64)] = Raised "TypeError".
Proof.
  apply (x11_surplus_or_unknown_argument_is_a_type_error
           [VFloat (Fin 0)] [("nlev"%string, VInt 64)]).
  right. exists "nlev"%string, (VInt 64). split; [now left|].
  intros [H|[H|[H|[H|[H|[]]]]]]; discriminate H.
Defined.

(** X12: the reversal test is [reverse==True], not truthiness: passing
    the integer 1 or the float 1.0 reverses the map exactly as [True]
    does, while any other integer (2 or -1, say, which Python counts as
    true) leaves the map unreversed exactly as [False] does. *)
Theorem x12_reverse_is_compared_with_True
  (start rot gamma hue : pyval) (z : Z) :
  cmap_call [start; rot; gamma; hue; VInt 1] []
  = cmap_call [start; rot; gamma; hue; VBool true] []
  /\ cmap_call [start; rot; gamma; hue; VFloat (Fin 1)] []
     = cmap_call [start; rot; gamma; hue; VBool true] []
  /\ (z <> 1%Z ->
      cmap_call [start; rot; gamma; hue; VInt z] []
      = cmap_call [start; rot; gamma; hue; VBool false] []).
Proof.
  split; [reflexivity|]. split.
  - unfold cmap_call. cbn [bind_arguments bind_positional signature
      option_map bind_keywords fill_defaults eq_True Float.eqb].
    destruct (Req_dec_T 1 1); [reflexivity|lra].
  - intro Hz. unfold cmap_call. cbn [bind_arguments bind_positional signature
      option_map bind_keywords fill_defaults eq_True].
    apply Z.eqb_neq in Hz. now rewrite Hz.
Qed.

Lemma x12_reverse_is_compared_with_True_witness :
  cmap_call [VFloat (Fin 0.5); VFloat (Fin (- 1.5)); VFloat (Fin 1);
             VFloat (Fin 1.2); VInt 2] []
  = cmap_call [VFloat (Fin 0.5); VFloat (Fin (- 1.5)); VFloat (Fin 1);
               VFloat (Fin 1.2); VBool false] [].
Proof.
  destruct (x12_reverse_is_compared_with_True
              (VFloat (Fin 0.5)) (VFloat (Fin (- 1.5))) (VFloat (Fin 1))
              (VFloat (Fin 1.2)) 2) as [_ [_ H]].
  apply H. discriminate.
Defined.

(** Binding two keywords in either order gives the same slots. *)
Lemma bind_keyword_swap sl k1 v1 k2 v2 :
  match bind_keyword sl k1 v1 with
  | Some s => bind_keyword s k2 v2
  | None => None
  end
  = match bind_keyword sl k2 v2 with
    | Some s => bind_keyword s k1 v1
    | None => None
    end.
Proof.
  induction sl as [|[n cur] rest IH]; [reflexivity|].
  simpl. destruct (String.eqb n k1) eqn:E1, (String.eqb n k2) eqn:E2.
  - destruct cur; [reflexivity|]. simpl. now rewrite E1, E2.
  - destruct cur as [c|].
    + destruct (bind_keyword rest k2 v2); [|reflexivity].
      simpl. now rewrite E1.
    + simpl. rewrite E2.
      destruct (bind_keyword rest k2 v2); [|reflexivity].
      simpl. now rewrite E1.
  - destruct cur as [c|].
    + destruct (bind_keyword rest k1 v1); [|reflexivity].
      simpl. now rewrite E2.
    + simpl. rewrite E1.
      destruct (bind_keyword rest k1 v1); [|reflexivity].
      simpl. now rewrite E2.
  - destruct (bind_keyword rest k1 v1) as [r1|],
             (bind_keyword rest k2 v2) as [r2|];
      simpl; rewrite ?E1, ?E2.
    + now rewrite IH.
    + now rewrite IH.
    + now rewrite <- IH.
    + reflexivity.
Qed.

Lemma bind_keywords_permutation kw kw' :
  Permutation kw kw' ->
  forall sl, bind_keywords sl kw = bind_keywords sl kw'.
Proof.
  induction 1 as [|[key v] l l' _ IH|[k1 v1] [k2 v2] l|l l' l'' _ IH1 _ IH2];
    intro sl.
  - reflexivity.
  - simpl. destruct (bind_keyword sl key v); [apply IH|reflexivity].
  - simpl. pose proof (bind_keyword_swap sl k1 v1 k2 v2) as Hsw.
    destruct (bind_keyword sl k1 v1) as [s1|],
             (bind_keyword sl k2 v2) as [s2|].
    + destruct (bind_keyword s1 k2 v2), (bind_keyword s2 k1 v1);
        try discriminate; try reflexivity.
      now injection Hsw as <-.
    + now rewrite Hsw.
    + now rewrite <- Hsw.
    + reflexivity.
  - now rewrite IH1, IH2.
Qed.

(** X13: the order of the keyword arguments does not matter: two calls
    with the same positional arguments and the same keyword arguments in
    a different order have the same outcome, be it the returned map or
    the [TypeError]. *)
Theorem x13_keyword_order_is_irrelevant
  (pos : list pyval) (kw kw' : list (string * pyval)) :
  Permutation kw kw' -> cmap_call pos kw = cmap_call pos kw'.
Proof.
  intro Hp. unfold cmap_call, bind_arguments.
  destruct (bind_positional signature pos) as [sl|]; [|reflexivity].
  now rewrite (bind_keywords_permutation kw kw' Hp sl).
Qed.

Lemma x13_keyword_order_is_irrelevant_witness :
  cmap_call [] [("rot"%string, VFloat (Fin 1)); ("reverse"%string, VBool true)]
  = cmap_call [] [("reverse"%string, VBool true);
                  ("rot"%string, VFloat (Fin 1))].
Proof.
  apply (x13_keyword_order_is_irrelevant []). apply perm_swap.
Defined.

(** X14: positional arguments fill the parameters from the left: a call
    with up to five positional values has the same outcome as the call
    that passes the same values by keyword under the names [start],
    [rot], [gamma], [hue], [reverse], in that order. *)
Theorem x14_positional_arguments_name_the_leading_parameters
  (vals : list pyval) :
  (List.length vals <= 5)%nat ->
  cmap_call vals [] = cmap_call [] (combine (map fst signature) vals).
Proof.
  intro H.
  destruct vals as [|a [|b [|c [|d [|e [|x vals]]]]]];
    try reflexivity.
  simpl in H. lia.
Qed.

Lemma x14_positional_arguments_name_the_leading_parameters_witness :
  cmap_call [VFloat (Fin 0); VFloat (Fin (- 0.5))] []
  = cmap_call [] (combine (map fst signature)
                          [VFloat (Fin 0); VFloat (Fin (- 0.5))]).
Proof.
  apply (x14_positional_arguments_name_the_leading_parameters
           [VFloat (Fin 0); VFloat (Fin (- 0.5))]).
  simpl. lia.
Defined.


(** ** Negative gamma *)

(** For a base in (0,1] and an exponent in [-1,0) the real power lies
    between one and the inverse of the base. *)
Lemma Rpower_small_negative (x y : R) :
  0 < x <= 1 -> - 1 <= y < 0 -> 1 <= Rpower x y <= / x.
Proof.
  intros [Hx0 Hx1] [Hy0 Hy1]. unfold Rpower.
  assert (Hln : ln x <= 0).
  { rewrite <- ln_1. destruct Hx1 as [Hlt|Heq].
    - left. apply ln_increasing; assumption.
    - right. now rewrite Heq. }
  assert (Hlo : 0 <= y * ln x) by nra.
  assert (Hhi : y * ln x <= - ln x) by nra.
  split.
  - rewrite <- exp_0. destruct Hlo as [Hlt|Heq].
    + left. now apply exp_increasing.
    + right. now rewrite <- Heq.
  - rewrite <- (exp_ln x Hx0) at 2. rewrite <- exp_Ropp.
    destruct Hhi as [Hlt|Heq].
    + left. now apply exp_increasing.
    + right. now rewrite Heq.
Qed.

Lemma f_bounded_away_from_zero (g : R) (k : nat) :
  - 1 <= g < 0 -> (0 < k < nlev)%nat ->
  exists v, Reference.f (Fin g) nlev k = Fin v /\ 1 <= v <= 255.
Proof.
  intros Hg [Hk0 Hk]. pose proof (INR_lt_nlev k Hk) as Hb.
  apply lt_INR in Hk0. simpl in Hk0.
  assert (Hk1 : 1 <= INR k).
  { replace 1 with (INR 1) by reflexivity. apply le_INR.
    destruct k; [simpl in Hk0; lra|lia]. }
  unfold Reference.f. rewrite t_value by exact Hk.
  unfold Float.pow, Float.pow_fin.
  destruct (Req_dec_T g 0); [lra|].
  destruct (Rlt_dec 0 (INR k / 255)); [|exfalso; lra].
  destruct (Rpower_small_negative (INR k / 255) g) as [Hlo Hhi];
    [lra|exact Hg|].
  assert (Hinv : / (INR k / 255) <= 255).
  { replace (/ (INR k / 255)) with (255 / INR k) by (field; lra).
    apply Rmult_le_reg_r with (INR k); [lra|].
    replace (255 / INR k * INR k) with 255 by (field; lra). lra. }
  exists (Rpower (INR k / 255) g).
  split; [apply fit_fin; in_range|lra].
Qed.

(** With a fraction of at most 255 and a hue of magnitude at most
    [1e300] the three channels are finite. *)
Lemma channels_finite (s r g h v : R) (k : nat) :
  - 1e300 <= s <= 1e300 -> - 1e300 <= r <= 1e300 ->
  - 1e300 <= h <= 1e300 -> (k < nlev)%nat ->
  0 <= v <= 255 -> Reference.f (Fin g) nlev k = Fin v ->
  exists xr xg xb,
    Reference.red (Fin s) (Fin r) (Fin g) (Fin h) nlev k = Fin xr
    /\ Reference.green (Fin s) (Fin r) (Fin g) (Fin h) nlev k = Fin xg
    /\ Reference.blue (Fin s) (Fin r) (Fin g) (Fin h) nlev k = Fin xb.
Proof.
  intros Hs Hr Hh Hk Hv Hf.
  assert (Hh' : - (1e300) <= h <= 1e300) by lra.
  assert (Hv' : - 255 <= v <= 255) by lra.
  pose proof (product_bound h v 1e300 255 Hh' Hv') as Hhv.
  assert (Hw : - 255 <= 1 - v <= 255) by lra.
  pose proof (product_bound (h * v) (1 - v) (1e300 * 255) 255 Hhv Hw)
    as Hhvw.
  set (a := 2 * PI * (s / 3 + 1 + r * (INR k / 255))).
  destruct (trig_bounds a) as [Hc Hsn].
  assert (Hamp : Reference.amp (Fin g) (Fin h) nlev k
                 = Fin (h * v * (1 - v) / 2)).
  { unfold Reference.amp. rewrite Hf.
    rewrite mul_fin by in_range. rewrite sub_fin by in_range.
    rewrite mul_fin by in_range. now rewrite div_fin by (try lra; in_range). }
  assert (HA : - (1e300 * 255 * 255) <= h * v * (1 - v) / 2
               <= 1e300 * 255 * 255) by lra.
  set (A := h * v * (1 - v) / 2) in *.
  assert (Hsum : forall T, - 2 <= T <= 2 ->
                 (Fin v + Fin A * Fin T)%float = Fin (v + A * T)).
  { intros T HT.
    pose proof (product_bound A T (1e300 * 255 * 255) 2 HA HT) as HAT.
    rewrite mul_fin by in_range. apply add_fin. in_range. }
  unfold Reference.red, Reference.green, Reference.blue.
  rewrite Hamp, Hf, (angle_value s r k Hs Hr Hk). fold a.
  cbn [Float.cos Float.sin].
  destruct (coefficient_times_trig (- 0.14861) (cos a)) as [-> Hx1];
    [lra|exact Hc|].
  destruct (coefficient_times_trig 1.78277 (sin a)) as [-> Hy1];
    [lra|exact Hsn|].
  destruct (coefficient_times_trig (- 0.29227) (cos a)) as [-> Hx2];
    [lra|exact Hc|].
  destruct (coefficient_times_trig 0.90649 (sin a)) as [-> Hy2];
    [lra|exact Hsn|].
  destruct (coefficient_times_trig 1.97294 (cos a)) as [-> Hx3];
    [lra|exact Hc|].
  rewrite add_fin by in_range. rewrite sub_fin by in_range.
  rewrite !Hsum by lra.
  do 3 eexists. repeat split.
Qed.

Lemma pinf_plus (y : num) : (PInf + y)%float = PInf \/ (PInf + y)%float = NaN.
Proof. destruct y; simpl; auto. Qed.

Lemma clamp_of_pinf_plus (y : num) :
  Reference.clamp (PInf + y) = Fin 1 \/ Reference.clamp (PInf + y) = NaN.
Proof. destruct (pinf_plus y) as [-> | ->]; [now left|now right]. Qed.

(** X15: with a real [gamma] in [-1,0) and [start], [rot], [hue] of
    magnitude at most [1e300], only the colour computed at position 0,
    where [0 ** gamma] is infinite, is affected: a sample that takes its
    colour from any other position has all three channels in [0,1], and
    the sample that takes it from position 0 (index 0, or index 255 when
    reversed) has each channel equal to 1 or to nan. *)
Theorem x15_negative_gamma_spoils_one_sample_only
  (s r g h : R) (reverse : bool) (k : nat) :
  - 1 <= g < 0 ->
  - 1e300 <= s <= 1e300 -> - 1e300 <= r <= 1e300 ->
  - 1e300 <= h <= 1e300 ->
  (k < nlev)%nat ->
  exists smp,
    sample_at (cmap (Fin s) (Fin r) (Fin g) (Fin h) reverse) k = Some smp
    /\ ((0 < source_index reverse k)%nat ->
        in_unit (r_of smp) /\ in_unit (g_of smp) /\ in_unit (b_of smp))
    /\ (source_index reverse k = 0%nat ->
        (r_of smp = Fin 1 \/ r_of smp = NaN)
        /\ (g_of smp = Fin 1 \/ g_of smp = NaN)
        /\ (b_of smp = Fin 1 \/ b_of smp = NaN)).
Proof.
  intros Hg Hs Hr Hh Hk. pose proof (source_index_lt reverse k Hk) as Hsrc.
  eexists. split; [apply sample_at_cmap; exact Hk|].
  cbn [r_of g_of b_of]. split.
  - intro Hpos.
    destruct (f_bounded_away_from_zero g (source_index reverse k) Hg)
      as [v [Hf Hv]]; [lia|].
    destruct (channels_finite s r g h v _ Hs Hr Hh Hsrc) as
      [xr [xg [xb [Hred [Hgrn Hblu]]]]]; [lra|exact Hf|].
    rewrite Hred, Hgrn, Hblu. repeat split; apply clamp_fin_unit.
  - intros ->.
    unfold Reference.red, Reference.green, Reference.blue.
    rewrite (f_first_negative g) by lra.
    repeat split; apply clamp_of_pinf_plus.
Qed.

Lemma x15_negative_gamma_spoils_one_sample_only_witness :
  exists smp,
    sample_at (cmap (Fin 0) (Fin (- 1.5)) (Fin (- 1)) (Fin 1.2) true) 255
    = Some smp
    /\ ((0 < source_index true 255)%nat ->
        in_unit (r_of smp) /\ in_unit (g_of smp) /\ in_unit (b_of smp))
    /\ (source_index true 255 = 0%nat ->
        (r_of smp = Fin 1 \/ r_of smp = NaN)
        /\ (g_of smp = Fin 1 \/ g_of smp = NaN)
        /\ (b_of smp = Fin 1 \/ b_of smp = NaN)).
Proof.
  apply (x15_negative_gamma_spoils_one_sample_only
           0 (- 1.5) (- 1) 1.2 true 255); try lra.
  unfold nlev; lia.
Defined.
